(** * A/V streaming server: wire protocol, ring buffer, queue and fan-out

    A shallow embedding of the server's core data structures
    (AVServer_01_SafeQueue.h, AVServer_02_CircularBuffer.h,
    AVServer_03_FrameBuffer.h, AVServer_06_MessageProtocol.h,
    AVServer_08_Connection.h, AVServer_09_AVServer.h,
    AVServer_11_VideoCapture.h, AVServer_14_CompressionEngine.h,
    AVServer_15_MediaProcessor.h) together with the properties of them
    that the design document states, and what the code does where it
    departs from them.

    Conventions.
    - Fixed-width unsigned integers are [Z] with the wrap-around written
      out; bytes are [Z] in [0, 256).
    - A method of a C++ object is a function from the object's state to the
      returned value and the new state; what a method takes from outside
      (bytes received, the clock, whether an allocation succeeds, what
      uninitialised storage holds) is an argument.
    - A thread that parks on a condition variable or on a socket is an
      explicit outcome ([Blocked], [SendBlocks]), not a missing result.
    - Objects have the representation of the common 64-bit ABIs:
      little-endian scalars at their natural alignment.
    - The definitions named after the methods of [CircularBuffer] and
      [Connection] are the bodies of the methods, each one atomic step.
      The mutex of the ring buffer is added in [Locking] (the order of
      the acquisitions) and in [RingCall] and [ConnectionCall] (the
      calls as a thread makes them, which may not return). *)

From Stdlib Require Import ZArith Lia Bool.
From stdpp Require Import base list strings.

Local Open Scope Z_scope.

(** ** SafeQueue<T> (AVServer_01_SafeQueue.h) *)

Module SafeQueue.

Definition thread_id := nat.

Section Queue.
Context {T : Type}.

(** [queue_] is the std::queue (front of the queue = head of the list),
    [shutdown_] the flag, and [waiting] the threads parked inside
    [condition_.wait], oldest first. *)
Record t := mk {
  queue_ : list T;
  shutdown_ : bool;
  waiting : list thread_id
}.

Definition create : t := mk [] false [].

Definition with_queue (l : list T) (q : t) : t :=
  mk l (shutdown_ q) (waiting q).
Definition with_shutdown (b : bool) (q : t) : t :=
  mk (queue_ q) b (waiting q).
Definition with_waiting (w : list thread_id) (q : t) : t :=
  mk (queue_ q) (shutdown_ q) w.

Definition is_empty (l : list T) : bool :=
  match l with [] => true | _ => false end.

(** The predicate handed to [condition_.wait] and [wait_for]:
    [!queue_.empty() || shutdown_]. *)
Definition wait_pred (q : t) : bool :=
  negb (is_empty (queue_ q)) || shutdown_ q.

(** The body of [pop] once the wait is over.  [Some v] stands for
    "returned true with [value = v]", [None] for "returned false". *)
Definition pop_locked (q : t) : option T * t :=
  if shutdown_ q && is_empty (queue_ q) then (None, q)
  else match queue_ q with
       | v :: rest => (Some v, with_queue rest q)
       | [] => (None, q)
       end.

Inductive outcome :=
| Returned (r : option T)
| Blocked.

(** [pop] called by thread [tid]: it returns at once when the wait
    predicate holds and parks the thread otherwise. *)
Definition pop (tid : thread_id) (q : t) : outcome * t :=
  if wait_pred q then
    let '(r, q') := pop_locked q in (Returned r, q')
  else (Blocked, with_waiting (waiting q ++ [tid]) q).

(** [pop_for]: as [pop], but a thread whose predicate is false comes
    back with [false] when the timeout expires ([timed_out]). *)
Definition pop_for (tid : thread_id) (timed_out : bool) (q : t)
  : outcome * t :=
  if wait_pred q then
    let '(r, q') := pop_locked q in (Returned r, q')
  else if timed_out then (Returned None, q)
  else (Blocked, with_waiting (waiting q ++ [tid]) q).

Definition try_pop (q : t) : option T * t :=
  match queue_ q with
  | [] => (None, q)
  | v :: rest => (Some v, with_queue rest q)
  end.

(** What a parked thread does when it is notified: it evaluates the
    predicate again, finishes its [pop] when it holds and goes back to
    sleep otherwise.  The value each finished [pop] returned is
    recorded next to its thread. *)
Definition event : Type := thread_id * option T.

Definition wake (st : t * list event) (tid : thread_id)
  : t * list event :=
  let '(q, evs) := st in
  if wait_pred q then
    let '(r, q') := pop_locked q in (q', evs ++ [(tid, r)])
  else (with_waiting (waiting q ++ [tid]) q, evs).

(** [notify_one] wakes one parked thread (the model takes the one that
    has waited longest), [notify_all] wakes all of them in turn. *)
Definition notify_one (q : t) : t * list event :=
  match waiting q with
  | [] => (q, [])
  | tid :: rest => wake (with_waiting rest q, []) tid
  end.

Definition notify_all (q : t) : t * list event :=
  fold_left wake (waiting q) (with_waiting [] q, []).

Definition push (v : T) (q : t) : t * list event :=
  notify_one (with_queue (queue_ q ++ [v]) q).

Definition shutdown (q : t) : t * list event :=
  notify_all (with_shutdown true q).

Definition size (q : t) : nat := length (queue_ q).
Definition empty (q : t) : bool := is_empty (queue_ q).
Definition clear (q : t) : t := with_queue [] q.
Definition is_shutdown (q : t) : bool := shutdown_ q.

(** [n] calls of [pop] in a row by thread [tid]. *)
Fixpoint pops (n : nat) (tid : thread_id) (q : t) : list outcome * t :=
  match n with
  | O => ([], q)
  | S n' =>
      let '(o, q') := pop tid q in
      let '(os, q'') := pops n' tid q' in
      (o :: os, q'')
  end.

(** The items [vs] pushed one after the other. *)
Definition push_all (vs : list T) (q : t) : t :=
  fold_left (fun q' v => fst (push v q')) vs q.

(** [n] calls of [try_pop] in a row. *)
Fixpoint try_pops (n : nat) (q : t) : list (option T) * t :=
  match n with
  | O => ([], q)
  | S n' =>
      let '(r, q') := try_pop q in
      let '(rs, q'') := try_pops n' q' in
      (r :: rs, q'')
  end.

End Queue.

Arguments t : clear implicits.
Arguments outcome : clear implicits.
Arguments event : clear implicits.

End SafeQueue.

(** ** CircularBuffer (AVServer_02_CircularBuffer.h)

    Indices and sizes are [size_t]; they are natural numbers here, no sum
    of two of them reaches 2^64 for a buffer that fits in memory.  A byte
    is a [Z] in [0, 256).  The definitions below are the bodies of the
    methods: what their statements compute once [mutex_] is held, the
    fill level being what [available_data_unlocked()] returns.  They do
    not track who owns [mutex_]; the order in which the methods take the
    mutex is the subject of [Locking], and the calls themselves, which
    take the mutex, of [RingCall]. *)

Module CircularBuffer.

Record t := mk {
  capacity_ : nat;
  buffer_ : list Z;
  write_pos_ : nat;
  read_pos_ : nat
}.

(** [std::make_unique<uint8_t[]>(capacity)] value-initialises the array. *)
Definition create (capacity : nat) : t :=
  mk capacity (replicate capacity 0) 0 0.

(** [std::memcpy(buffer_.get() + pos, src, |src|)]. *)
Definition memcpy_in (buf : list Z) (pos : nat) (src : list Z) : list Z :=
  take pos buf ++ src ++ drop (pos + length src) buf.

(** [std::memcpy(dest, buffer_.get() + pos, n)]. *)
Definition memcpy_out (buf : list Z) (pos n : nat) : list Z :=
  take n (drop pos buf).

Definition available_data (cb : t) : nat :=
  if (read_pos_ cb <=? write_pos_ cb)%nat
  then (write_pos_ cb - read_pos_ cb)%nat
  else (capacity_ cb - read_pos_ cb + write_pos_ cb)%nat.

Definition available_data_unlocked (cb : t) : nat :=
  if (read_pos_ cb <=? write_pos_ cb)%nat
  then (write_pos_ cb - read_pos_ cb)%nat
  else (capacity_ cb - read_pos_ cb + write_pos_ cb)%nat.

Definition available_space (cb : t) : nat :=
  (capacity_ cb - available_data_unlocked cb)%nat.

(** [write(data, size)] with [data] pointing at the bytes [src] and
    [size = length src]; a null [data] behaves as [size = 0].  Returns
    the number of bytes written. *)
Definition write (src : list Z) (cb : t) : nat * t :=
  let size := length src in
  if (size =? 0)%nat then (0%nat, cb) else
  let available := (capacity_ cb - available_data cb)%nat in
  let bytes_to_write := Nat.min size available in
  if (bytes_to_write =? 0)%nat then (0%nat, cb) else
  if (write_pos_ cb + bytes_to_write <=? capacity_ cb)%nat then
    (bytes_to_write,
     mk (capacity_ cb)
        (memcpy_in (buffer_ cb) (write_pos_ cb) (take bytes_to_write src))
        ((write_pos_ cb + bytes_to_write) mod capacity_ cb)%nat
        (read_pos_ cb))
  else
    let first_part := (capacity_ cb - write_pos_ cb)%nat in
    let buf1 := memcpy_in (buffer_ cb) (write_pos_ cb) (take first_part src) in
    let second_part := (bytes_to_write - first_part)%nat in
    let buf2 := memcpy_in buf1 0 (take second_part (drop first_part src)) in
    (bytes_to_write, mk (capacity_ cb) buf2 second_part (read_pos_ cb)).

(** [read(data, size)]: the bytes copied to [data] (their number is the
    returned count) and the new state. *)
Definition read (size : nat) (cb : t) : list Z * t :=
  if (size =? 0)%nat then ([], cb) else
  let bytes_available := available_data cb in
  let bytes_to_read := Nat.min size bytes_available in
  if (bytes_to_read =? 0)%nat then ([], cb) else
  if (read_pos_ cb + bytes_to_read <=? capacity_ cb)%nat then
    (memcpy_out (buffer_ cb) (read_pos_ cb) bytes_to_read,
     mk (capacity_ cb) (buffer_ cb) (write_pos_ cb)
        ((read_pos_ cb + bytes_to_read) mod capacity_ cb)%nat)
  else
    let first_part := (capacity_ cb - read_pos_ cb)%nat in
    let second_part := (bytes_to_read - first_part)%nat in
    (memcpy_out (buffer_ cb) (read_pos_ cb) first_part
       ++ memcpy_out (buffer_ cb) 0 second_part,
     mk (capacity_ cb) (buffer_ cb) (write_pos_ cb) second_part).

(** [peek(data, size)]: as [read], the state is left alone. *)
Definition peek (size : nat) (cb : t) : list Z :=
  if (size =? 0)%nat then [] else
  let bytes_available := available_data cb in
  let bytes_to_peek := Nat.min size bytes_available in
  if (bytes_to_peek =? 0)%nat then [] else
  if (read_pos_ cb + bytes_to_peek <=? capacity_ cb)%nat then
    memcpy_out (buffer_ cb) (read_pos_ cb) bytes_to_peek
  else
    let first_part := (capacity_ cb - read_pos_ cb)%nat in
    let second_part := (bytes_to_peek - first_part)%nat in
    memcpy_out (buffer_ cb) (read_pos_ cb) first_part
      ++ memcpy_out (buffer_ cb) 0 second_part.

Definition clear (cb : t) : t :=
  mk (capacity_ cb) (buffer_ cb) 0 0.

Definition capacity (cb : t) : nat := capacity_ cb.
Definition empty (cb : t) : bool := (read_pos_ cb =? write_pos_ cb)%nat.
Definition full (cb : t) : bool :=
  (available_data_unlocked cb =? capacity_ cb)%nat.

(** The states the constructor and the methods can produce. *)
Definition wf (cb : t) : Prop :=
  length (buffer_ cb) = capacity_ cb /\
  (capacity_ cb = 0%nat /\ write_pos_ cb = 0%nat /\ read_pos_ cb = 0%nat \/
   (write_pos_ cb < capacity_ cb)%nat /\ (read_pos_ cb < capacity_ cb)%nat).

(** An interleaved sequence of writes and reads. *)
Inductive op :=
| Write (src : list Z)
| Read (size : nat).

(** The bytes each write accepted and the bytes each read returned, in
    the order of the calls. *)
Fixpoint run (ops : list op) (cb : t) : list Z * list Z * t :=
  match ops with
  | [] => ([], [], cb)
  | Write src :: rest =>
      let '(n, cb') := write src cb in
      let '(acc, out, cb'') := run rest cb' in
      (take n src ++ acc, out, cb'')
  | Read size :: rest =>
      let '(bytes, cb') := read size cb in
      let '(acc, out, cb'') := run rest cb' in
      (acc, bytes ++ out, cb'')
  end.

(** The unread bytes, oldest first. *)
Definition contents (cb : t) : list Z :=
  if (read_pos_ cb <=? write_pos_ cb)%nat
  then take (write_pos_ cb - read_pos_ cb) (drop (read_pos_ cb) (buffer_ cb))
  else drop (read_pos_ cb) (buffer_ cb) ++ take (write_pos_ cb) (buffer_ cb).

(** Every write of the run leaves at least one byte of the buffer free. *)
Fixpoint never_fills (ops : list op) (cb : t) : bool :=
  match ops with
  | [] => true
  | Write src :: rest =>
      (length src <? capacity_ cb - available_data cb)%nat
      && never_fills rest (snd (write src cb))
  | Read size :: rest => never_fills rest (snd (read size cb))
  end.

End CircularBuffer.

(** The mutex discipline of the ring buffer.  Each method is reduced to
    the sequence of acquisitions and releases of [mutex_] it performs on a
    call that passes its argument check; [std::mutex] is not recursive. *)

Module Locking.

Inductive mutex_op := Acquire | Release.

(** [available_data()] : one [lock_guard] around the computation. *)
Definition available_data_ops : list mutex_op := [Acquire; Release].

(** [write], [read], [peek] : a [lock_guard] for the whole body, and a
    call of the public [available_data()] as the first thing under it. *)
Definition write_ops : list mutex_op :=
  [Acquire] ++ available_data_ops ++ [Release].
Definition read_ops : list mutex_op :=
  [Acquire] ++ available_data_ops ++ [Release].
Definition peek_ops : list mutex_op :=
  [Acquire] ++ available_data_ops ++ [Release].

(** [available_space], [full] use [available_data_unlocked()]. *)
Definition available_space_ops : list mutex_op := [Acquire; Release].
Definition full_ops : list mutex_op := [Acquire; Release].
Definition clear_ops : list mutex_op := [Acquire; Release].

(** One thread running a sequence of operations on a mutex that starts
    [held] or not: [None] when the thread acquires a mutex it already
    owns (it never gets past that point), [Some held'] otherwise. *)
Fixpoint run_thread (held : bool) (ops : list mutex_op) : option bool :=
  match ops with
  | [] => Some held
  | Acquire :: rest => if held then None else run_thread true rest
  | Release :: rest => run_thread false rest
  end.

End Locking.

(** ** MessageHeader and Message (AVServer_06_MessageProtocol.h) *)

Module Protocol.

(** *** Bytes and little-endian scalars *)

Fixpoint le_bytes (n : nat) (v : Z) : list Z :=
  match n with
  | O => []
  | S n' => (v mod 256) :: le_bytes n' (v / 256)
  end.

Fixpoint le_value (l : list Z) : Z :=
  match l with
  | [] => 0
  | b :: rest => b + 256 * le_value rest
  end.

(** *** Object representation of [struct MessageHeader]

    The struct is declared without a packing directive, so its members
    sit at their natural alignment: each scalar at the next multiple of
    its own size, and the size of the struct is a multiple of the
    largest alignment.  The host is little-endian.  [serialize],
    [deserialize] and [calculate_crc] reach this representation through
    [memcpy] and [reinterpret_cast]. *)

Definition align_up (off a : nat) : nat := ((off + a - 1) / a * a)%nat.

(** Offsets of the members and the end of the last one. *)
Fixpoint natural_layout (off : nat) (sizes : list nat) : list nat * nat :=
  match sizes with
  | [] => ([], off)
  | s :: rest =>
      let '(offs, fin) := natural_layout (align_up off s + s) rest in
      (align_up off s :: offs, fin)
  end.

(** magic, type, payload_size, timestamp, header_crc *)
Definition field_sizes : list nat := [4; 2; 4; 8; 2]%nat.
Definition field_offsets : list nat := fst (natural_layout 0 field_sizes).
Definition struct_size : nat :=
  align_up (snd (natural_layout 0 field_sizes)) (foldr Nat.max 1%nat field_sizes).

Definition MAGIC_NUMBER : Z := 0xABCD1234.
Definition HEADER_SIZE : nat := 20.
Definition MAX_PAYLOAD_SIZE : Z := 100 * 1024 * 1024.

(** The members, and the contents of the padding bytes (6-7, 12-15 and
    26-31), which no member initialiser writes. *)
Record MessageHeader := mkHeader {
  magic : Z;
  type : Z;
  payload_size : Z;
  timestamp : Z;
  header_crc : Z;
  pad_6 : Z;
  pad_12 : Z;
  pad_26 : Z
}.

Definition object_bytes (h : MessageHeader) : list Z :=
  le_bytes 4 (magic h) ++ le_bytes 2 (type h) ++ le_bytes 2 (pad_6 h)
    ++ le_bytes 4 (payload_size h) ++ le_bytes 4 (pad_12 h)
    ++ le_bytes 8 (timestamp h)
    ++ le_bytes 2 (header_crc h) ++ le_bytes 6 (pad_26 h).

Definition slice (off n : nat) (l : list Z) : list Z := take n (drop off l).

Definition of_object_bytes (l : list Z) : MessageHeader :=
  {| magic := le_value (slice 0 4 l);
     type := le_value (slice 4 2 l);
     pad_6 := le_value (slice 6 2 l);
     payload_size := le_value (slice 8 4 l);
     pad_12 := le_value (slice 12 4 l);
     timestamp := le_value (slice 16 8 l);
     header_crc := le_value (slice 24 2 l);
     pad_26 := le_value (slice 26 6 l) |}.

(** *** CRC *)

(** One round of the inner loop: [if (crc & 1) crc = (crc >> 1) ^ 0xA001;
    else crc >>= 1;]. *)
Definition crc_bit (crc : Z) : Z :=
  if Z.testbit crc 0 then Z.lxor (Z.shiftr crc 1) 0xA001
  else Z.shiftr crc 1.

(** One round of the outer loop: [crc ^= data[i]] and eight bit rounds. *)
Definition crc_byte (crc b : Z) : Z :=
  Nat.iter 8 crc_bit (Z.lxor crc b).

Definition crc16 (data : list Z) : Z := fold_left crc_byte data 0xFFFF.

Definition calculate_crc (h : MessageHeader) : Z :=
  crc16 (take 18 (object_bytes h)).

(** *** MessageHeader *)

Inductive MessageType :=
| FRAME_DATA | VIDEO_FRAME | AUDIO_FRAME
| START_STREAM | STOP_STREAM | SET_BITRATE | SET_QUALITY | CODEC_INFO
| HEARTBEAT | HEARTBEAT_ACK | ACK | ERROR.

Definition type_code (ty : MessageType) : Z :=
  match ty with
  | FRAME_DATA => 0 | VIDEO_FRAME => 1 | AUDIO_FRAME => 2
  | START_STREAM => 100 | STOP_STREAM => 101 | SET_BITRATE => 102
  | SET_QUALITY => 103 | CODEC_INFO => 104
  | HEARTBEAT => 200 | HEARTBEAT_ACK => 201 | ACK => 202 | ERROR => 203
  end.

(** What the storage of a new header holds in its padding bytes. *)
Record padding := mkPadding { at_6 : Z; at_12 : Z; at_26 : Z }.
Definition zero_padding : padding := mkPadding 0 0 0.

Definition with_crc (c : Z) (h : MessageHeader) : MessageHeader :=
  mkHeader (magic h) (type h) (payload_size h) (timestamp h) c
           (pad_6 h) (pad_12 h) (pad_26 h).

(** The constructor: members initialised with [header_crc(0)], then
    [header_crc = calculate_crc()]. *)
Definition new_header (p : padding) (msg_type : MessageType)
    (payload_sz ts : Z) : MessageHeader :=
  let h0 := mkHeader MAGIC_NUMBER (type_code msg_type)
              (payload_sz mod 2^32) (ts mod 2^64) 0
              (at_6 p) (at_12 p) (at_26 p) in
  with_crc (calculate_crc h0) h0.

Definition is_valid (h : MessageHeader) : bool :=
  if negb (magic h =? MAGIC_NUMBER) then false
  else if payload_size h >? MAX_PAYLOAD_SIZE then false
  else if negb (header_crc h =? calculate_crc h) then false
  else true.

(** [memcpy(buffer, this, HEADER_SIZE)] *)
Definition serialize (h : MessageHeader) : list Z :=
  take HEADER_SIZE (object_bytes h).

(** [memcpy(this, buffer, HEADER_SIZE)]: the first 20 bytes of the
    object are overwritten, the others keep what they held. *)
Definition deserialize (buffer : list Z) (h : MessageHeader)
  : MessageHeader :=
  of_object_bytes (take HEADER_SIZE buffer ++ drop HEADER_SIZE (object_bytes h)).

(** *** Message *)

Record Message := mkMessage {
  header_ : MessageHeader;
  payload_ : list Z;
  valid_ : bool
}.

Definition default_message (p : padding) : Message :=
  mkMessage (new_header p FRAME_DATA 0 0) [] true.

(** [Message(type, payload_size, timestamp)]: the payload is reserved,
    not filled. *)
Definition new_message (p : padding) (ty : MessageType)
    (payload_size timestamp : Z) : Message :=
  mkMessage (new_header p ty payload_size timestamp) [] true.

Definition get_type (m : Message) : Z := type (header_ m).
Definition get_timestamp (m : Message) : Z := timestamp (header_ m).
Definition get_payload_size (m : Message) : Z := payload_size (header_ m).

Definition with_type (ty : Z) (h : MessageHeader) : MessageHeader :=
  mkHeader (magic h) ty (payload_size h) (timestamp h) (header_crc h)
           (pad_6 h) (pad_12 h) (pad_26 h).
Definition with_timestamp (ts : Z) (h : MessageHeader) : MessageHeader :=
  mkHeader (magic h) (type h) (payload_size h) ts (header_crc h)
           (pad_6 h) (pad_12 h) (pad_26 h).
Definition with_payload_size (n : Z) (h : MessageHeader) : MessageHeader :=
  mkHeader (magic h) (type h) n (timestamp h) (header_crc h)
           (pad_6 h) (pad_12 h) (pad_26 h).

Definition set_type (ty : MessageType) (m : Message) : Message :=
  let h := with_type (type_code ty) (header_ m) in
  mkMessage (with_crc (calculate_crc h) h) (payload_ m) (valid_ m).

Definition set_timestamp (ts : Z) (m : Message) : Message :=
  let h := with_timestamp (ts mod 2^64) (header_ m) in
  mkMessage (with_crc (calculate_crc h) h) (payload_ m) (valid_ m).

(** [set_payload(data, size)] with [data] pointing at [size] bytes
    ([length data = size]); [alloc_ok = false] is the case in which
    [resize] throws.  The header CRC is not recomputed. *)
Definition set_payload (alloc_ok : bool) (data : list Z) (m : Message)
  : bool * Message :=
  if (length data =? 0)%nat then
    (true, mkMessage (with_payload_size 0 (header_ m)) [] (valid_ m))
  else if alloc_ok then
    (true, mkMessage (with_payload_size (Z.of_nat (length data)) (header_ m))
                     data (valid_ m))
  else (false, mkMessage (header_ m) (payload_ m) false).

Definition clear_payload (m : Message) : Message :=
  mkMessage (with_payload_size 0 (header_ m)) [] (valid_ m).

Definition to_bytes (m : Message) : list Z :=
  serialize (header_ m) ++ payload_ m.

Definition total_size (m : Message) : nat :=
  (HEADER_SIZE + length (payload_ m))%nat.

(** [from_bytes(data, size)] with [size = length data]; [alloc_ok =
    false] is the case in which [payload_.assign] throws. *)
Definition from_bytes (alloc_ok : bool) (data : list Z) (m : Message)
  : bool * Message :=
  if (length data <? HEADER_SIZE)%nat then
    (false, mkMessage (header_ m) (payload_ m) false)
  else
    let h := deserialize data (header_ m) in
    if negb (is_valid h) then (false, mkMessage h (payload_ m) false)
    else
      let expected_total := Z.of_nat HEADER_SIZE + payload_size h in
      if Z.of_nat (length data) <? expected_total then
        (false, mkMessage h (payload_ m) false)
      else if payload_size h >? 0 then
        if alloc_ok then
          (true, mkMessage h
                   (take (Z.to_nat (payload_size h)) (drop HEADER_SIZE data))
                   true)
        else (false, mkMessage h (payload_ m) false)
      else (true, mkMessage h [] true).

Definition message_is_valid (m : Message) : bool :=
  valid_ m && is_valid (header_ m).

(** [append_payload(data, size)] with [length data = size]: the new
    payload size, or 0 when the insertion throws ([alloc_ok = false]). *)
Definition append_payload (alloc_ok : bool) (data : list Z) (m : Message)
  : Z * Message :=
  if (length data =? 0)%nat then (payload_size (header_ m), m)
  else if alloc_ok then
    let payload := payload_ m ++ data in
    let h := with_payload_size (Z.of_nat (length payload) mod 2^32) (header_ m) in
    (payload_size h, mkMessage h payload (valid_ m))
  else (0, mkMessage (header_ m) (payload_ m) false).

End Protocol.

(** ** Connection (AVServer_08_Connection.h) *)

Module Connection.
Import Protocol.

(** The kernel side of a connected TCP socket, as far as [::send] sees
    it: a socket in error answers -1, a socket whose peer has stopped
    reading takes [window] more bytes and then blocks the caller, and
    [wire] is what has been handed over so far. *)
Record Socket := mkSocket {
  broken : bool;
  window : nat;
  wire : list Z
}.

Inductive sys_result :=
| Sent (n : nat)
| SysError
| SysBlocks.

(** [::send(socket_, data, |data|, 0)] on a blocking socket. *)
Definition sys_send (data : list Z) (s : Socket) : sys_result * Socket :=
  if broken s then (SysError, s)
  else match window s with
       | O => (SysBlocks, s)
       | S _ =>
           let n := Nat.min (length data) (window s) in
           (Sent n, mkSocket false (window s - n)%nat (wire s ++ take n data))
       end.

(** The lines written to [std::cerr]. *)
Inductive diagnostic :=
| InvalidHeader (id : Z)
| IncompleteRead (id : Z)
| DeserializeFailed (id : Z)
| RecvBufferFull
| SendFailed (id : Z).

Record t := mk {
  id_ : Z;
  socket_ : Socket;
  connected_ : bool;
  recv_buffer_ : CircularBuffer.t;
  cerr : list diagnostic
}.

Definition with_buffer (b : CircularBuffer.t) (c : t) : t :=
  mk (id_ c) (socket_ c) (connected_ c) b (cerr c).
Definition with_socket (s : Socket) (c : t) : t :=
  mk (id_ c) s (connected_ c) (recv_buffer_ c) (cerr c).
Definition with_connected (b : bool) (c : t) : t :=
  mk (id_ c) (socket_ c) b (recv_buffer_ c) (cerr c).
Definition log (d : diagnostic) (c : t) : t :=
  mk (id_ c) (socket_ c) (connected_ c) (recv_buffer_ c) (cerr c ++ [d]).

Definition is_connected (c : t) : bool := connected_ c.

(** [try_extract_message(message)].  [p] is what the storage of the
    local [MessageHeader header] holds in its padding, [alloc_ok] tells
    whether the payload allocation inside [from_bytes] succeeds. *)
Definition try_extract_message (p : padding) (alloc_ok : bool)
    (message : Message) (c : t) : bool * Message * t :=
  if (CircularBuffer.available_data (recv_buffer_ c) <? HEADER_SIZE)%nat then
    (false, message, c)
  else
    let header_buf := CircularBuffer.peek HEADER_SIZE (recv_buffer_ c) in
    if negb (length header_buf =? HEADER_SIZE)%nat then (false, message, c)
    else
      let header := deserialize header_buf (new_header p FRAME_DATA 0 0) in
      if negb (is_valid header) then
        (false, message,
         with_buffer (CircularBuffer.clear (recv_buffer_ c))
                     (log (InvalidHeader (id_ c)) c))
      else
        let total_needed :=
          (HEADER_SIZE + Z.to_nat (payload_size header))%nat in
        if (CircularBuffer.available_data (recv_buffer_ c) <? total_needed)%nat
        then (false, message, c)
        else
          let '(msg_data, rb) :=
            CircularBuffer.read total_needed (recv_buffer_ c) in
          if negb (length msg_data =? total_needed)%nat then
            (false, message, log (IncompleteRead (id_ c)) (with_buffer rb c))
          else
            let '(ok, message') := from_bytes alloc_ok msg_data message in
            if negb ok then
              (false, message',
               log (DeserializeFailed (id_ c)) (with_buffer rb c))
            else (true, message', with_buffer rb c).

(** [receive_message(message)]; [incoming] is what [::recv] copied into
    [recv_buf] (at most 4096 bytes, none on end of stream or error). *)
Definition receive_message (p : padding) (alloc_ok : bool)
    (incoming : list Z) (message : Message) (c : t) : bool * Message * t :=
  if negb (connected_ c) then (false, message, c)
  else if (length incoming =? 0)%nat then
    (false, message, with_connected false c)
  else
    let '(written, rb) := CircularBuffer.write incoming (recv_buffer_ c) in
    let c1 := with_buffer rb c in
    let c2 := if negb (written =? length incoming)%nat
              then log RecvBufferFull c1 else c1 in
    try_extract_message p alloc_ok message c2.

Inductive send_outcome :=
| SendReturned (ok : bool)
| SendBlocks.

(** The [while (remaining > 0)] loop of [send]; every round hands over
    at least one byte, so [length data] rounds are enough.  The source
    counts in [int remaining = bytes.size()]: the loop below is the
    source's for messages of fewer than 2^31 bytes. *)
Fixpoint send_loop (fuel : nat) (data : list Z) (s : Socket)
  : send_outcome * Socket :=
  match data with
  | [] => (SendReturned true, s)
  | _ :: _ =>
      match fuel with
      | O => (SendReturned true, s)
      | S fuel' =>
          match sys_send data s with
          | (Sent n, s') => send_loop fuel' (drop n data) s'
          | (SysError, s') => (SendReturned false, s')
          | (SysBlocks, s') => (SendBlocks, s')
          end
      end
  end.

(** [send(message)] *)
Definition send (message : Message) (c : t) : send_outcome * t :=
  if negb (connected_ c) then (SendReturned false, c)
  else
    let bytes := to_bytes message in
    match send_loop (length bytes) bytes (socket_ c) with
    | (SendReturned true, s') => (SendReturned true, with_socket s' c)
    | (SendReturned false, s') =>
        (SendReturned false,
         log (SendFailed (id_ c)) (with_connected false (with_socket s' c)))
    | (SendBlocks, s') => (SendBlocks, with_socket s' c)
    end.




(** [get_buffer_stats()] *)
Definition get_buffer_stats (c : t) : nat * nat :=
  (CircularBuffer.available_data (recv_buffer_ c),
   CircularBuffer.available_space (recv_buffer_ c)).

End Connection.

(** ** The fan-out loop (AVServer::distribution_loop, AVServer_09_AVServer.h) *)

Module AVServer.
Import Protocol.

(** The fields of [ClientSession] the loop reads. *)
Record ClientSession := mkSession {
  client_id : Z;
  bitrate_limit : Z;
  is_active : bool
}.

Record ServerStatistics := mkStats {
  total_messages_sent : Z;
  total_bytes_sent : Z;
  video_frames_sent : Z;
  audio_frames_sent : Z
}.

(** [tcp_server_.connections_] : a [std::map] from id to connection. *)
Definition connections := list (Z * Connection.t).

Fixpoint get_connection (id : Z) (cs : connections) : option Connection.t :=
  match cs with
  | [] => None
  | (k, c) :: rest => if k =? id then Some c else get_connection id rest
  end.

Fixpoint put_connection (id : Z) (c : Connection.t) (cs : connections)
  : connections :=
  match cs with
  | [] => []
  | (k, c0) :: rest =>
      if k =? id then (k, c) :: rest else (k, c0) :: put_connection id c rest
  end.

Record t := mk {
  tcp_connections : connections;
  stats_ : ServerStatistics
}.

Definition count_sent (msg : Message) (st : ServerStatistics)
  : ServerStatistics :=
  mkStats (total_messages_sent st + 1)
          (total_bytes_sent st + Z.of_nat (length (to_bytes msg)))
          (if get_type msg =? type_code VIDEO_FRAME
           then video_frames_sent st + 1 else video_frames_sent st)
          (if get_type msg =? type_code VIDEO_FRAME then audio_frames_sent st
           else if get_type msg =? type_code AUDIO_FRAME
                then audio_frames_sent st + 1 else audio_frames_sent st).

(** The body of [for (const auto& [client_id, session] : clients)] for
    one message; [clients] is the snapshot returned by
    [get_all_clients()], in the iteration order of the map (ascending
    id).  The result tells whether the loop came to its end: once a
    [send] blocks, the distribution thread executes nothing after it. *)
Fixpoint fan_out (msg : Message) (clients : list (Z * ClientSession))
    (srv : t) : bool * t :=
  match clients with
  | [] => (true, srv)
  | (cid, session) :: rest =>
      if is_active session then
        match get_connection cid (tcp_connections srv) with
        | Some conn =>
            match Connection.send msg conn with
            | (Connection.SendReturned _, conn') =>
                fan_out msg rest
                  (mk (put_connection cid conn' (tcp_connections srv))
                      (count_sent msg (stats_ srv)))
            | (Connection.SendBlocks, conn') =>
                (false, mk (put_connection cid conn' (tcp_connections srv))
                           (stats_ srv))
            end
        | None => fan_out msg rest srv
        end
      else fan_out msg rest srv
  end.

(** The bytes that have reached the socket of connection [id]. *)
Definition delivered (id : Z) (srv : t) : list Z :=
  match get_connection id (tcp_connections srv) with
  | Some c => Connection.wire (Connection.socket_ c)
  | None => []
  end.

End AVServer.

(** ** IEEE-754 binary64 products

    [compress_data] multiplies a [uint32_t] by a [double] constant and
    casts the product back.  A finite non-negative double is kept as
    [mant * 2^expo]; a product is the exact product of the two operands
    rounded to 53 significant bits, ties to even.  No number met here is
    subnormal or overflows. *)

Module Float64.

Record double := mkDouble { mant : Z; expo : Z }.

(** Rounds the integer [n] to 53 significant bits: the result is the
    pair [(m, s)] standing for [m * 2^s]. *)
Definition round53 (n : Z) : Z * Z :=
  let s := Z.log2 n + 1 - 53 in
  if s <=? 0 then (n, 0)
  else
    let q := n / 2 ^ s in
    let r := n mod 2 ^ s in
    let half := 2 ^ (s - 1) in
    if (half <? r) || ((r =? half) && Z.odd q) then (q + 1, s) else (q, s).

(** Conversion of an unsigned 32-bit integer: exact. *)
Definition of_uint32 (n : Z) : double := mkDouble n 0.

Definition mul (a b : double) : double :=
  let '(m, s) := round53 (mant a * mant b) in
  mkDouble m (expo a + expo b + s).

(** [static_cast<uint32_t>(d)]: the fraction is discarded. *)
Definition to_uint32 (d : double) : Z :=
  if 0 <=? expo d then mant d * 2 ^ expo d
  else mant d / 2 ^ (- expo d).

(** The doubles that the literals 0.75, 0.60 and 0.40 denote. *)
Definition d_0_75 : double := mkDouble 6755399441055744 (-53).
Definition d_0_60 : double := mkDouble 5404319552844595 (-53).
Definition d_0_40 : double := mkDouble 7205759403792794 (-54).

End Float64.

(** ** AVFrame and FrameBufferPool (AVServer_03_FrameBuffer.h) *)

Module Frame.

Inductive FrameType :=
| VIDEO_I_FRAME | VIDEO_P_FRAME | VIDEO_B_FRAME | AUDIO_FRAME.

Inductive CodecType := H264 | H265 | VP9 | AAC | MP3.

Record AVFrame := mkFrame {
  frame_type : FrameType;
  codec_type : CodecType;
  width : Z;
  height : Z;
  sample_rate : Z;
  channels : Z;
  timestamp : Z;
  pts : Z;
  data : list Z;
  size : Z;
  bitrate : Z;
  quality : Z
}.

Definition new_frame (ty : FrameType) (codec : CodecType) : AVFrame :=
  mkFrame ty codec 0 0 0 0 0 0 [] 0 0 80.

Definition clear (f : AVFrame) : AVFrame :=
  mkFrame (frame_type f) (codec_type f) (width f) (height f)
          (sample_rate f) (channels f) 0 0 [] 0 (bitrate f) (quality f).

(** [std::vector<uint8_t>::resize(n)] *)
Definition resize (n : nat) (l : list Z) : list Z :=
  take n l ++ replicate (n - length l) 0.

Record FrameBufferPool := mkPool {
  pool_size_ : nat;
  available_frames_ : list AVFrame;
  stats_total_get_ : Z;
  stats_total_return_ : Z
}.

Definition new_pool (pool_size : nat) : FrameBufferPool :=
  mkPool pool_size (replicate pool_size (new_frame VIDEO_I_FRAME H264)) 0 0.

Definition get (p : FrameBufferPool) : AVFrame * FrameBufferPool :=
  match available_frames_ p with
  | f :: rest =>
      (clear f, mkPool (pool_size_ p) rest (stats_total_get_ p + 1)
                       (stats_total_return_ p))
  | [] =>
      (clear (new_frame VIDEO_I_FRAME H264),
       mkPool (pool_size_ p) [] (stats_total_get_ p + 1)
              (stats_total_return_ p))
  end.

Definition return_frame (f : AVFrame) (p : FrameBufferPool)
  : FrameBufferPool :=
  mkPool (pool_size_ p)
         (if (length (available_frames_ p) <? pool_size_ p)%nat
          then available_frames_ p ++ [clear f] else available_frames_ p)
         (stats_total_get_ p) (stats_total_return_ p + 1).

End Frame.

(** ** CompressionEngine (AVServer_14_CompressionEngine.h) *)

Module CompressionEngine.
Import Frame.

(** The members of [CompressionConfig] the encoder reads. *)
Record CompressionConfig := mkConfig {
  cfg_quality : Z;
  target_bitrate : Z
}.

(** The integer counters of [EncodingStatistics]; the moving averages,
    which are [double]s fed by the clock, are left out. *)
Record EncodingStatistics := mkStats {
  total_frames_processed : Z;
  total_frames_encoded : Z;
  total_input_bytes : Z;
  total_output_bytes : Z
}.

Record t := mk {
  config_ : CompressionConfig;
  is_running_ : bool;
  frame_count_ : Z;
  stats_ : EncodingStatistics
}.

Definition default_config : CompressionConfig := mkConfig 80 5000000.
Definition create (cfg : CompressionConfig) : t :=
  mk cfg false 0 (mkStats 0 0 0 0).
Definition start (e : t) : t :=
  mk (config_ e) true (frame_count_ e) (stats_ e).

Definition set_quality (q : Z) (e : t) : t :=
  mk (mkConfig (Z.max 0 (Z.min 100 q)) (target_bitrate (config_ e)))
     (is_running_ e) (frame_count_ e) (stats_ e).

Definition compression_ratio (e : t) : Float64.double :=
  if 80 <=? cfg_quality (config_ e) then Float64.d_0_75
  else if 50 <=? cfg_quality (config_ e) then Float64.d_0_60
  else Float64.d_0_40.

(** [static_cast<uint32_t>(original_size * compression_ratio)] *)
Definition compress_data (e : t) (original_size : Z) : Z :=
  Float64.to_uint32
    (Float64.mul (Float64.of_uint32 original_size) (compression_ratio e)).

Definition update_stats (input output : AVFrame) (e : t) : t :=
  mk (config_ e) (is_running_ e) ((frame_count_ e + 1) mod 2^64)
     (mkStats ((total_frames_processed (stats_ e) + 1) mod 2^64)
              ((total_frames_encoded (stats_ e) + 1) mod 2^64)
              ((total_input_bytes (stats_ e) + size input) mod 2^64)
              ((total_output_bytes (stats_ e) + size output) mod 2^64)).

(** [encode_video(input, output)]; a null [shared_ptr] is [None].  The
    result is the returned flag, the frame [output] points to, and the
    engine. *)
Definition encode_video (input output : option AVFrame) (e : t)
  : bool * option AVFrame * t :=
  match input, output with
  | Some inp, Some out =>
      if negb (is_running_ e) then (false, output, e)
      else
        let original_size := (width inp * height inp * 3 mod 2^32) / 2 in
        let compressed_size := compress_data e original_size in
        let out' :=
          mkFrame VIDEO_I_FRAME (codec_type inp) (width inp) (height inp)
                  (sample_rate out) (channels out)
                  (timestamp inp) (pts out)
                  (resize (Z.to_nat compressed_size) (data out))
                  compressed_size
                  (target_bitrate (config_ e))
                  (cfg_quality (config_ e) mod 256) in
        (true, Some out', update_stats inp out' e)
  | _, _ => (false, output, e)
  end.

Definition encode_audio (input output : option AVFrame) (e : t)
  : bool * option AVFrame * t :=
  match input, output with
  | Some inp, Some out =>
      if negb (is_running_ e) then (false, output, e)
      else
        let original_size := size inp in
        let compressed_size := compress_data e original_size in
        let out' :=
          mkFrame AUDIO_FRAME (codec_type inp) (width out) (height out)
                  (sample_rate inp) (channels inp)
                  (timestamp inp) (pts out)
                  (resize (Z.to_nat compressed_size) (data out))
                  compressed_size
                  (target_bitrate (config_ e))
                  (cfg_quality (config_ e) mod 256) in
        (true, Some out', update_stats inp out' e)
  | _, _ => (false, output, e)
  end.

End CompressionEngine.

(** ** MediaProcessor (AVServer_15_MediaProcessor.h) *)

Module MediaProcessor.
Import Protocol.

Record ProcessingStatistics := mkStats {
  total_video_frames : Z;
  total_audio_frames : Z;
  total_messages_sent : Z;
  total_video_bytes_sent : Z;
  total_audio_bytes_sent : Z
}.

Record t := mk {
  compress_engine_ : CompressionEngine.t;
  message_queue_ : SafeQueue.t Message;
  frame_pool : Frame.FrameBufferPool;
  stats_ : ProcessingStatistics
}.

Definition create (e : CompressionEngine.t) : t :=
  mk e SafeQueue.create (Frame.new_pool 30) (mkStats 0 0 0 0 0).

(** What one pass of the loop gets from outside: the frames that
    [try_get_video_frame] and [try_get_audio_frame] return, the clock
    readings of [get_timestamp_ms], and the padding of the storage in
    which each [Message msg] is built. *)
Record inputs := mkInputs {
  raw_video : option Frame.AVFrame;
  raw_audio : option Frame.AVFrame;
  now_video : Z;
  now_audio : Z;
  msg_padding : padding
}.

(** [Message msg(type, encoded->size, now);
     msg.set_payload(encoded->data.data(), encoded->size);] *)
Definition wrap (p : padding) (ty : MessageType) (now : Z)
    (encoded : Frame.AVFrame) : Message :=
  snd (set_payload true
         (take (Z.to_nat (Frame.size encoded)) (Frame.data encoded))
         (new_message p ty (Frame.size encoded) now)).

(** The "process video frame" block of [process_loop]. *)
Definition process_video (i : inputs) (mp : t) : t :=
  match raw_video i with
  | None => mp
  | Some raw =>
      let '(encoded, pool1) := Frame.get (frame_pool mp) in
      match CompressionEngine.encode_video (Some raw) (Some encoded)
              (compress_engine_ mp) with
      | (true, Some out, e') =>
          let msg := wrap (msg_padding i) VIDEO_FRAME (now_video i) out in
          mk e' (fst (SafeQueue.push msg (message_queue_ mp)))
             (Frame.return_frame out pool1)
             (mkStats (total_video_frames (stats_ mp) + 1)
                      (total_audio_frames (stats_ mp))
                      (total_messages_sent (stats_ mp) + 1)
                      (total_video_bytes_sent (stats_ mp) + Frame.size out)
                      (total_audio_bytes_sent (stats_ mp)))
      | (_, _, e') =>
          mk e' (message_queue_ mp) pool1 (stats_ mp)
      end
  end.

(** The "process audio frame" block. *)
Definition process_audio (i : inputs) (mp : t) : t :=
  match raw_audio i with
  | None => mp
  | Some raw =>
      let '(encoded, pool1) := Frame.get (frame_pool mp) in
      match CompressionEngine.encode_audio (Some raw) (Some encoded)
              (compress_engine_ mp) with
      | (true, Some out, e') =>
          let msg := wrap (msg_padding i) AUDIO_FRAME (now_audio i) out in
          mk e' (fst (SafeQueue.push msg (message_queue_ mp)))
             (Frame.return_frame out pool1)
             (mkStats (total_video_frames (stats_ mp))
                      (total_audio_frames (stats_ mp) + 1)
                      (total_messages_sent (stats_ mp) + 1)
                      (total_video_bytes_sent (stats_ mp))
                      (total_audio_bytes_sent (stats_ mp) + Frame.size out))
      | (_, _, e') =>
          mk e' (message_queue_ mp) pool1 (stats_ mp)
      end
  end.

(** One pass of [while (running_.load())]; the flag tells whether the
    pass ends with the 1 ms sleep ([!has_frame]). *)
Definition process_pass (i : inputs) (mp : t) : bool * t :=
  (match raw_video i, raw_audio i with
   | None, None => true
   | _, _ => false
   end,
   process_audio i (process_video i mp)).

(** The loop, for as many passes as there are inputs. *)
Definition process_loop (ins : list inputs) (mp : t) : t :=
  fold_left (fun m i => snd (process_pass i m)) ins mp.

(** [try_get_message()], the consumer side. *)
Definition try_get_message (mp : t) : option Message * t :=
  let '(r, q) := SafeQueue.try_pop (message_queue_ mp) in
  (r, mk (compress_engine_ mp) q (frame_pool mp) (stats_ mp)).

Definition get_queue_size (mp : t) : nat :=
  SafeQueue.size (message_queue_ mp).

End MediaProcessor.

(** ** VideoCapture (AVServer_11_VideoCapture.h) *)

Module VideoCapture.

Inductive SourceType := CAMERA | FILE | SCREEN | TEST_PATTERN.

Record VideoCaptureConfig := mkConfig {
  source_type : SourceType;
  width : Z;
  height : Z;
  framerate : Z;
  codec_type : Frame.CodecType;
  bitrate : Z;
  quality : Z;
  buffer_size : nat
}.

Definition default_config : VideoCaptureConfig :=
  mkConfig CAMERA 1920 1080 30 Frame.H264 5000000 80 30.

(** [capture_device_] is a handle that is null or not; [frame_queue_]
    holds the captured frames, oldest first. *)
Record t := mk {
  config_ : VideoCaptureConfig;
  frame_pool_ : Frame.FrameBufferPool;
  capture_device_ : bool;
  frame_queue_ : SafeQueue.t Frame.AVFrame;
  frame_count_ : Z;
  dropped_frames_ : Z
}.

(** The constructor called without a pool: it makes one of
    [buffer_size] frames. *)
Definition create (config : VideoCaptureConfig) : t :=
  mk config (Frame.new_pool (buffer_size config)) false SafeQueue.create 0 0.






(** [try_get_frame()]: a null pointer when the queue is empty. *)
Definition try_get_frame (v : t) : option Frame.AVFrame * t :=
  let '(r, q) := SafeQueue.try_pop (frame_queue_ v) in
  (r, mk (config_ v) (frame_pool_ v) (capture_device_ v) q
         (frame_count_ v) (dropped_frames_ v)).

Definition get_queue_size (v : t) : nat := SafeQueue.size (frame_queue_ v).

End VideoCapture.

(** ** Calls on a ring buffer guarded by its mutex

    The definitions of [CircularBuffer] and of the receive side of
    [Connection] above are the bodies of the methods: what their
    statements compute once [mutex_] is held.  This part adds the
    locking.  A call is made by a thread that owns [mutex_] or not
    ([held]); [std::lock_guard] on a [std::mutex] that the calling
    thread owns does not come back (the behaviour is undefined, and the
    implementations block the thread on itself), while a recursive
    mutex admits the re-entry.  The source declares [std::mutex mutex_]:
    its behaviour is the one at [StdMutex]. *)

Module Call.

Inductive outcome (A : Type) :=
| Returns (a : A)
| NeverReturns.

Arguments Returns {A} a.
Arguments NeverReturns {A}.

Definition bind {A B : Type} (o : outcome A) (f : A -> outcome B)
  : outcome B :=
  match o with
  | Returns a => f a
  | NeverReturns => NeverReturns
  end.

Inductive mutex_kind := StdMutex | RecursiveMutex.

(** [std::lock_guard<...> lock(mutex_);] followed by [body], which runs
    with the mutex held. *)
Definition lock_guard {A : Type} (kind : mutex_kind) (held : bool)
    (body : outcome A) : outcome A :=
  match kind, held with
  | StdMutex, true => NeverReturns
  | _, _ => body
  end.

End Call.

Module RingCall.
Import Call.

(** [available_data()]: a [lock_guard] around the computation. *)
Definition available_data (kind : mutex_kind) (held : bool)
    (cb : CircularBuffer.t) : outcome nat :=
  lock_guard kind held (Returns (CircularBuffer.available_data cb)).

(** [available_space()], [empty()], [full()] and [clear()]: a
    [lock_guard], and [available_data_unlocked()] where the fill level
    is needed. *)
Definition available_space (kind : mutex_kind) (held : bool)
    (cb : CircularBuffer.t) : outcome nat :=
  lock_guard kind held (Returns (CircularBuffer.available_space cb)).

Definition empty (kind : mutex_kind) (held : bool) (cb : CircularBuffer.t)
  : outcome bool :=
  lock_guard kind held (Returns (CircularBuffer.empty cb)).

Definition full (kind : mutex_kind) (held : bool) (cb : CircularBuffer.t)
  : outcome bool :=
  lock_guard kind held (Returns (CircularBuffer.full cb)).

Definition clear (kind : mutex_kind) (held : bool) (cb : CircularBuffer.t)
  : outcome CircularBuffer.t :=
  lock_guard kind held (Returns (CircularBuffer.clear cb)).

(** [write(data, size)]: the argument check, then a [lock_guard] under
    which the first statement calls the public [available_data()]; the
    rest of the body is [CircularBuffer.write]. *)
Definition write (kind : mutex_kind) (held : bool) (src : list Z)
    (cb : CircularBuffer.t) : outcome (nat * CircularBuffer.t) :=
  if (length src =? 0)%nat then Returns (0%nat, cb)
  else
    lock_guard kind held
      (bind (available_data kind true cb)
            (fun _ => Returns (CircularBuffer.write src cb))).

(** [read(data, size)] and [peek(data, size)], in the same way. *)
Definition read (kind : mutex_kind) (held : bool) (size : nat)
    (cb : CircularBuffer.t) : outcome (list Z * CircularBuffer.t) :=
  if (size =? 0)%nat then Returns ([], cb)
  else
    lock_guard kind held
      (bind (available_data kind true cb)
            (fun _ => Returns (CircularBuffer.read size cb))).

Definition peek (kind : mutex_kind) (held : bool) (size : nat)
    (cb : CircularBuffer.t) : outcome (list Z) :=
  if (size =? 0)%nat then Returns []
  else
    lock_guard kind held
      (bind (available_data kind true cb)
            (fun _ => Returns (CircularBuffer.peek size cb))).

End RingCall.

(** The receive side of [Connection], each use of [recv_buffer_] a call
    by a thread that does not own the buffer's mutex. *)

Module ConnectionCall.
Import Protocol Connection Call.

(** [try_extract_message(message)] *)
Definition try_extract_message (kind : mutex_kind) (p : padding)
    (alloc_ok : bool) (message : Message) (c : Connection.t)
  : outcome (bool * Message * Connection.t) :=
  let rb := recv_buffer_ c in
  bind (RingCall.available_data kind false rb) (fun fill =>
  if (fill <? HEADER_SIZE)%nat then Returns (false, message, c)
  else
  bind (RingCall.peek kind false HEADER_SIZE rb) (fun header_buf =>
  if negb (length header_buf =? HEADER_SIZE)%nat
  then Returns (false, message, c)
  else
    let header := deserialize header_buf (new_header p FRAME_DATA 0 0) in
    if negb (is_valid header) then
      bind (RingCall.clear kind false rb) (fun rb' =>
      Returns (false, message,
               with_buffer rb' (log (InvalidHeader (id_ c)) c)))
    else
      let total_needed :=
        (HEADER_SIZE + Z.to_nat (payload_size header))%nat in
      bind (RingCall.available_data kind false rb) (fun fill' =>
      if (fill' <? total_needed)%nat then Returns (false, message, c)
      else
      bind (RingCall.read kind false total_needed rb) (fun r =>
      let '(msg_data, rb') := r in
      if negb (length msg_data =? total_needed)%nat then
        Returns (false, message,
                 log (IncompleteRead (id_ c)) (with_buffer rb' c))
      else
        let '(ok, message') := from_bytes alloc_ok msg_data message in
        if negb ok then
          Returns (false, message',
                   log (DeserializeFailed (id_ c)) (with_buffer rb' c))
        else Returns (true, message', with_buffer rb' c))))).

(** [receive_message(message)]; [incoming] is what [::recv] copied into
    [recv_buf]. *)
Definition receive_message (kind : mutex_kind) (p : padding)
    (alloc_ok : bool) (incoming : list Z) (message : Message)
    (c : Connection.t) : outcome (bool * Message * Connection.t) :=
  if negb (connected_ c) then Returns (false, message, c)
  else if (length incoming =? 0)%nat then
    Returns (false, message, with_connected false c)
  else
    bind (RingCall.write kind false incoming (recv_buffer_ c)) (fun w =>
    let '(written, rb) := w in
    let c1 := with_buffer rb c in
    let c2 := if negb (written =? length incoming)%nat
              then log RecvBufferFull c1 else c1 in
    try_extract_message kind p alloc_ok message c2).

End ConnectionCall.

(** ** Quantities and concrete objects used in the statements *)

(** The fraction of a quality tier, as numerator and denominator. *)
Definition tier_fraction (quality : Z) : Z * Z :=
  if 80 <=? quality then (3, 4)
  else if 50 <=? quality then (3, 5)
  else (2, 5).

(** The size [encode_video] starts from: the YUV420 size of the
    geometry, in 32-bit arithmetic. *)
Definition yuv420_size (f : Frame.AVFrame) : Z :=
  (Frame.width f * Frame.height f * 3 mod 2 ^ 32) / 2.

(** The frames a pass of the pipeline task finds ready. *)
Definition frames_present (i : MediaProcessor.inputs) : nat :=
  (match MediaProcessor.raw_video i with Some _ => 1 | None => 0 end
   + match MediaProcessor.raw_audio i with Some _ => 1 | None => 0 end)%nat.

(** The messages a pass adds: one per frame when the encoder runs. *)
Definition encoded_now (i : MediaProcessor.inputs) (mp : MediaProcessor.t) : nat :=
  if CompressionEngine.is_running_ (MediaProcessor.compress_engine_ mp)
  then frames_present i else 0%nat.

(** The video header of the design document's first scenario, with a
    non-zero timestamp: type 1, payload size 1024, timestamp 7, in zeroed
    storage. *)
Definition sample_header : Protocol.MessageHeader :=
  Protocol.new_header Protocol.zero_padding Protocol.VIDEO_FRAME 1024 7.

(** The design document's second scenario: a heartbeat (type 200) with
    an empty payload and timestamp 42, and the receiver of the class's
    usage example, [Message received; received.from_bytes(bytes);]. *)
Definition heartbeat_42 : Protocol.Message :=
  Protocol.new_message Protocol.zero_padding Protocol.HEARTBEAT 0 42.
Definition received : Protocol.Message :=
  Protocol.default_message Protocol.zero_padding.

(** A message whose timestamp does not fit in 32 bits, as every reading
    of [get_timestamp_ms()] is. *)
Definition late_frame : Protocol.Message :=
  Protocol.new_message Protocol.zero_padding Protocol.FRAME_DATA 0 (2 ^ 32).

(** A connection whose ring buffer (capacity 64) holds one complete
    20-byte frame followed by five bytes of the next one, and a
    [Message] object the caller used before for a heartbeat. *)
Definition next_bytes : list Z := [1; 2; 3; 4; 5].

Definition conn_with_frame : Connection.t :=
  Connection.mk 7 (Connection.mkSocket false 1000 []) true
    (snd (CircularBuffer.write
            (Protocol.to_bytes (Protocol.default_message Protocol.zero_padding)
               ++ next_bytes)
            (CircularBuffer.create 64)))
    [].

Definition reused_message : Protocol.Message :=
  Protocol.new_message Protocol.zero_padding Protocol.HEARTBEAT 0 0.

(** Two subscribers: number 1 has stopped reading, number 2 is healthy. *)
Definition stuck_peer : Connection.t :=
  Connection.mk 1 (Connection.mkSocket false 0 []) true
    (CircularBuffer.create 64) [].
Definition healthy_peer : Connection.t :=
  Connection.mk 2 (Connection.mkSocket false 4096 []) true
    (CircularBuffer.create 64) [].
Definition two_subscribers : AVServer.t :=
  AVServer.mk [(1, stuck_peer); (2, healthy_peer)] (AVServer.mkStats 0 0 0 0).
Definition both_active : list (Z * AVServer.ClientSession) :=
  [(1, AVServer.mkSession 1 5000000 true); (2, AVServer.mkSession 2 5000000 true)].

(** The frame the server's own video capture hands to the encoder:
    1920 x 1080, its data capped at 100000 bytes; and an audio frame. *)
Definition captured_video : Frame.AVFrame :=
  Frame.mkFrame Frame.VIDEO_I_FRAME Frame.H264 1920 1080 0 0 1700000000000 0
    (replicate (Z.to_nat 100000) 0) 100000 15000000 80.

Definition captured_audio : Frame.AVFrame :=
  Frame.mkFrame Frame.AUDIO_FRAME Frame.AAC 0 0 48000 2 1700000000000 0
    (replicate 4096 0) 4096 128000 80.

Definition running_engine : CompressionEngine.t :=
  CompressionEngine.start (CompressionEngine.create CompressionEngine.default_config).

(** A frame as [FrameBufferPool::get] returns it. *)
Definition pool_frame : Frame.AVFrame :=
  Frame.clear (Frame.new_frame Frame.VIDEO_I_FRAME Frame.H264).

(** A pass of the pipeline task that finds a video frame ready, and a
    processor whose encoder runs. *)
Definition video_ready : MediaProcessor.inputs :=
  MediaProcessor.mkInputs
    (Some (Frame.new_frame Frame.VIDEO_I_FRAME Frame.H264)) None 0 0
    Protocol.zero_padding.

Definition running_processor : MediaProcessor.t :=
  MediaProcessor.create running_engine.

(** Byte strings as the wire carries them. *)
Definition is_byte (b : Z) : Prop := 0 <= b < 256.
Definition bytes (l : list Z) : Prop := Forall is_byte l.

(** One round of the checksum is undone by looking at bit 15 of its
    result. *)
Definition crc_unbit (r : Z) : Z :=
  if Z.testbit r 15 then 2 * Z.lxor r 0xA001 + 1 else 2 * r.










(** The header as the design document words it: the five members back
    to back, little-endian, so that bytes 0..17 are magic, type, payload
    size and timestamp and bytes 18..19 the stored CRC; and the validity
    check stated over that layout. *)
Definition stated_header_bytes (h : Protocol.MessageHeader) : list Z :=
  Protocol.le_bytes 4 (Protocol.magic h)
    ++ Protocol.le_bytes 2 (Protocol.type h)
    ++ Protocol.le_bytes 4 (Protocol.payload_size h)
    ++ Protocol.le_bytes 8 (Protocol.timestamp h)
    ++ Protocol.le_bytes 2 (Protocol.header_crc h).

Definition stated_is_valid (h : Protocol.MessageHeader) : bool :=
  (Protocol.magic h =? Protocol.MAGIC_NUMBER)
  && (Protocol.payload_size h <=? Protocol.MAX_PAYLOAD_SIZE)
  && (Protocol.header_crc h
      =? Protocol.crc16 (take 18 (stated_header_bytes h))).

(** [sample_header] with a timestamp that differs above its two low
    bytes, and with one bit of the padding at offset 6 set. *)
Definition later_header : Protocol.MessageHeader :=
  Protocol.with_timestamp (7 + 2 ^ 16 + 5 * 2 ^ 32) sample_header.

Definition repadded_header : Protocol.MessageHeader :=
  Protocol.mkHeader (Protocol.magic sample_header) (Protocol.type sample_header)
    (Protocol.payload_size sample_header) (Protocol.timestamp sample_header)
    (Protocol.header_crc sample_header) 1 (Protocol.pad_12 sample_header)
    (Protocol.pad_26 sample_header).

(** * Properties *)

(** ** SafeQueue *)

Section SafeQueueFacts.
Context {T : Type}.
Implicit Types (q : SafeQueue.t T) (v : T).
Import SafeQueue.

Lemma wait_pred_shutdown q : shutdown_ q = true -> wait_pred q = true.
Proof. intros H. unfold wait_pred. rewrite H. apply orb_true_r. Qed.

Lemma wait_pred_nonempty q v l : queue_ q = v :: l -> wait_pred q = true.
Proof. intros H. unfold wait_pred. rewrite H. reflexivity. Qed.

Lemma pop_locked_cons q v l :
  queue_ q = v :: l -> pop_locked q = (Some v, with_queue l q).
Proof.
  intros H. unfold pop_locked. rewrite H. simpl.
  rewrite andb_false_r. reflexivity.
Qed.

Lemma pop_locked_nil q : queue_ q = [] -> pop_locked q = (None, q).
Proof. intros H. unfold pop_locked. rewrite H. simpl. by destruct (shutdown_ q). Qed.

(** A woken thread never goes back to sleep once the flag is set. *)
Lemma wake_all_shutdown (ws : list thread_id) q (evs : list (event T)) :
  shutdown_ q = true -> waiting q = [] ->
  exists q' evs',
    fold_left wake ws (q, evs) = (q', evs ++ evs') /\
    shutdown_ q' = true /\ waiting q' = [] /\ map fst evs' = ws.
Proof.
  revert q evs. induction ws as [|w ws IH]; intros q evs Hs Hw.
  - exists q, []. rewrite app_nil_r. auto.
  - simpl. rewrite (wait_pred_shutdown q Hs).
    destruct (queue_ q) as [|v l] eqn:Hq.
    + rewrite (pop_locked_nil q Hq).
      destruct (IH q (evs ++ [(w, None)]) Hs Hw) as (q' & evs' & E & ? & ? & ?).
      exists q', ((w, None) :: evs'). rewrite E, <- app_assoc. simpl.
      repeat split; auto. congruence.
    + rewrite (pop_locked_cons q v l Hq).
      destruct (IH (with_queue l q) (evs ++ [(w, Some v)]) Hs Hw)
        as (q' & evs' & E & ? & ? & ?).
      exists q', ((w, Some v) :: evs'). rewrite E, <- app_assoc. simpl.
      repeat split; auto. congruence.
Qed.

Lemma shutdown_spec q :
  exists q' evs,
    shutdown q = (q', evs) /\
    shutdown_ q' = true /\ waiting q' = [] /\ map fst evs = waiting q.
Proof.
  unfold shutdown, notify_all.
  destruct (wake_all_shutdown (waiting (with_shutdown true q))
              (with_waiting [] (with_shutdown true q)) [])
    as (q' & evs' & E & ? & ? & ?); auto.
  exists q', evs'. simpl in *. rewrite E. auto.
Qed.


(** After the flag is set, [pop] hands out what is left, oldest first,
    and then answers [false]; it never parks the caller. *)
Lemma pops_after_shutdown q (k : nat) (tid : thread_id) :
  shutdown_ q = true ->
  fst (pops (length (queue_ q) + k) tid q)
  = map (fun v => Returned (Some v)) (queue_ q) ++ replicate k (Returned None).
Proof.
  destruct q as [l s w]. simpl. intros ->. revert w.
  induction l as [|v l IH]; intros w.
  - simpl. induction k as [|k IHk]; [reflexivity|].
    simpl. unfold pop. simpl. 
    destruct (pops k tid _) as [os q''] eqn:E. simpl in *.
    f_equal. exact IHk.
  - simpl. unfold pop. simpl.
    specialize (IH w). unfold with_queue. simpl.
    destruct (pops (length l + k) tid _) as [os q''] eqn:E. simpl in *.
    f_equal. exact IH.
Qed.

End SafeQueueFacts.

Section SafeQueueClaims.
Context {T : Type}.
Implicit Types (q : SafeQueue.t T) (v : T).
Import SafeQueue.

(** [push] with nobody parked appends and wakes nobody. *)
Lemma push_no_waiter q v :
  waiting q = [] -> push v q = (with_queue (queue_ q ++ [v]) q, []).
Proof. intros H. unfold push, notify_one. simpl. rewrite H. reflexivity. Qed.

(** [push] never looks at the flag: it commutes with any setting of it. *)
Lemma push_ignores_shutdown q v (b : bool) :
  push v (with_shutdown b q)
  = (with_shutdown b (fst (push v q)), snd (push v q)).
Proof.
  destruct q as [l s w]. unfold push, notify_one. simpl.
  destruct w as [|tid rest]; [reflexivity|].
  simpl. unfold wait_pred, pop_locked. simpl.
  destruct l as [|x l]; simpl; rewrite ?andb_false_r; reflexivity.
Qed.


(** C10: after [shutdown()], [push(item)] still appends the item; the
    following calls of [pop] return what was left, then that item, each
    with [true], and only then [false].  [push] never tests the flag:
    it gives the same queue and the same wake-ups whatever the flag. *)
Theorem C10_push_after_shutdown_appends q v :
  let q1 := fst (shutdown q) in
  let q2 := fst (push v q1) in
  queue_ q2 = queue_ q1 ++ [v] /\
  shutdown_ q2 = true /\
  (forall (tid : thread_id) (k : nat),
     fst (pops (length (queue_ q1) + 1 + k) tid q2)
     = map (fun x => Returned (Some x)) (queue_ q1 ++ [v])
         ++ replicate k (Returned None)) /\
  (forall q0 (b : bool),
     push v (with_shutdown b q0)
     = (with_shutdown b (fst (push v q0)), snd (push v q0))).
Proof.
  destruct (shutdown_spec q) as (q' & evs & E & Hs & Hw & Hev).
  rewrite E. simpl. rewrite (push_no_waiter q' v Hw). simpl.
  repeat split; auto.
  - intros tid k.
    pose proof (pops_after_shutdown (with_queue (queue_ q' ++ [v]) q') k tid Hs)
      as P.
    simpl in P. rewrite length_app in P. simpl in P. exact P.
  - intros q0 b. apply push_ignores_shutdown.
Qed.

End SafeQueueClaims.

(** ** The pipeline's output queue *)

Section PipelineQueue.
Import Protocol MediaProcessor.

Lemma process_video_queue (i : inputs) (mp : t) :
  SafeQueue.waiting (message_queue_ mp) = [] ->
  exists added,
    SafeQueue.queue_ (message_queue_ (process_video i mp))
    = SafeQueue.queue_ (message_queue_ mp) ++ added /\
    length added
    = (if CompressionEngine.is_running_ (compress_engine_ mp)
       then match raw_video i with Some _ => 1 | None => 0 end else 0)%nat /\
    SafeQueue.waiting (message_queue_ (process_video i mp)) = [] /\
    CompressionEngine.is_running_ (compress_engine_ (process_video i mp))
    = CompressionEngine.is_running_ (compress_engine_ mp).
Proof.
  intros Hw. unfold process_video.
  destruct (raw_video i) as [raw|].
  2:{ exists []. rewrite app_nil_r.
      destruct (CompressionEngine.is_running_ _); auto. }
  destruct (Frame.get (frame_pool mp)) as [encoded pool1].
  unfold CompressionEngine.encode_video.
  destruct (CompressionEngine.is_running_ (compress_engine_ mp)) eqn:R; simpl.
  - rewrite (push_no_waiter _ _ Hw). simpl.
    eexists [_]. repeat split; auto.
  - exists []. rewrite app_nil_r. rewrite R. auto.
Qed.

Lemma process_audio_queue (i : inputs) (mp : t) :
  SafeQueue.waiting (message_queue_ mp) = [] ->
  exists added,
    SafeQueue.queue_ (message_queue_ (process_audio i mp))
    = SafeQueue.queue_ (message_queue_ mp) ++ added /\
    length added
    = (if CompressionEngine.is_running_ (compress_engine_ mp)
       then match raw_audio i with Some _ => 1 | None => 0 end else 0)%nat /\
    SafeQueue.waiting (message_queue_ (process_audio i mp)) = [] /\
    CompressionEngine.is_running_ (compress_engine_ (process_audio i mp))
    = CompressionEngine.is_running_ (compress_engine_ mp).
Proof.
  intros Hw. unfold process_audio.
  destruct (raw_audio i) as [raw|].
  2:{ exists []. rewrite app_nil_r.
      destruct (CompressionEngine.is_running_ _); auto. }
  destruct (Frame.get (frame_pool mp)) as [encoded pool1].
  unfold CompressionEngine.encode_audio.
  destruct (CompressionEngine.is_running_ (compress_engine_ mp)) eqn:R; simpl.
  - rewrite (push_no_waiter _ _ Hw). simpl.
    eexists [_]. repeat split; auto.
  - exists []. rewrite app_nil_r. rewrite R. auto.
Qed.

Lemma process_pass_queue (i : inputs) (mp : t) :
  SafeQueue.waiting (message_queue_ mp) = [] ->
  exists added,
    SafeQueue.queue_ (message_queue_ (snd (process_pass i mp)))
    = SafeQueue.queue_ (message_queue_ mp) ++ added /\
    length added = encoded_now i mp /\
    SafeQueue.waiting (message_queue_ (snd (process_pass i mp))) = [] /\
    CompressionEngine.is_running_ (compress_engine_ (snd (process_pass i mp)))
    = CompressionEngine.is_running_ (compress_engine_ mp).
Proof.
  intros Hw. unfold process_pass. simpl.
  destruct (process_video_queue i mp Hw) as (a1 & E1 & L1 & W1 & R1).
  destruct (process_audio_queue i (process_video i mp) W1)
    as (a2 & E2 & L2 & W2 & R2).
  exists (a1 ++ a2). rewrite E2, E1, <- app_assoc. repeat split; auto.
  - rewrite length_app, L1, L2, R1. unfold encoded_now, frames_present.
    destruct (CompressionEngine.is_running_ _); reflexivity.
  - congruence.
Qed.

Lemma process_loop_grows (n : nat) (mp : t) :
  SafeQueue.waiting (message_queue_ mp) = [] ->
  CompressionEngine.is_running_ (compress_engine_ mp) = true ->
  get_queue_size (process_loop (replicate n video_ready) mp)
  = (get_queue_size mp + n)%nat.
Proof.
  revert mp. induction n as [|n IH]; intros mp Hw Hr.
  - simpl. lia.
  - destruct (process_pass_queue video_ready mp Hw)
      as (added & E & L & W & R).
    change (process_loop (replicate (S n) video_ready) mp)
      with (process_loop (replicate n video_ready)
              (snd (process_pass video_ready mp))).
    rewrite IH; [|assumption|congruence].
    unfold get_queue_size, SafeQueue.size. rewrite E, length_app, L.
    unfold encoded_now. rewrite Hr.
    change (frames_present video_ready) with 1%nat. lia.
Qed.

(** Against C6 as stated: no capacity bounds the queue.  With frames
    always ready and nobody consuming, the pipeline task makes it longer
    than any given bound. *)
Lemma C6_no_capacity :
  ~ exists cap : nat,
      forall ins : list inputs,
        (get_queue_size (process_loop ins running_processor) <= cap)%nat.
Proof.
  intros [cap H].
  specialize (H (replicate (S cap) video_ready)).
  rewrite process_loop_grows in H by reflexivity.
  simpl in H. lia.
Qed.

(** C6, amended: the output queue has no capacity.  A pass of the
    pipeline task always completes; it leaves the messages already queued
    in place (the task never takes any out) and appends one message for
    every frame it encoded, whatever the length of the queue. *)
Theorem C6_output_queue_unbounded (i : inputs) (mp : t) :
  SafeQueue.waiting (message_queue_ mp) = [] ->
  exists added : list Message,
    SafeQueue.queue_ (message_queue_ (snd (process_pass i mp)))
    = SafeQueue.queue_ (message_queue_ mp) ++ added /\
    length added = encoded_now i mp /\
    get_queue_size (snd (process_pass i mp))
    = (get_queue_size mp + encoded_now i mp)%nat.
Proof.
  intros Hw.
  destruct (process_pass_queue i mp Hw) as (added & E & L & _ & _).
  exists added. repeat split; auto.
  unfold get_queue_size, SafeQueue.size. rewrite E, length_app, L. reflexivity.
Qed.

Lemma C6_output_queue_unbounded_witness :
  SafeQueue.waiting (message_queue_ running_processor) = [] /\
  exists added : list Message,
    SafeQueue.queue_ (message_queue_ (snd (process_pass video_ready running_processor)))
    = SafeQueue.queue_ (message_queue_ running_processor) ++ added /\
    length added = encoded_now video_ready running_processor /\
    get_queue_size (snd (process_pass video_ready running_processor))
    = (get_queue_size running_processor
       + encoded_now video_ready running_processor)%nat.
Proof.
  split; [reflexivity|].
  apply (C6_output_queue_unbounded video_ready running_processor).
  reflexivity.
Defined.

End PipelineQueue.

(** ** The ring buffer *)

Section RingBuffer.
Import CircularBuffer.

(** Every method that copies bytes takes [mutex_] and then calls the
    public [available_data()], which takes it again. *)
Lemma copying_methods_reacquire_mutex :
  Locking.run_thread false Locking.write_ops = None /\
  Locking.run_thread false Locking.read_ops = None /\
  Locking.run_thread false Locking.peek_ops = None /\
  Locking.run_thread false Locking.available_space_ops = Some false.
Proof. repeat split. Qed.

Lemma create_wf (capacity : nat) : wf (create capacity).
Proof.
  unfold wf, create. simpl. rewrite length_replicate. split; [reflexivity|].
  destruct capacity; [left; auto | right; lia].
Qed.

Lemma available_data_le (cb : t) : wf cb -> (available_data cb <= capacity_ cb)%nat.
Proof.
  intros [_ H]. unfold available_data.
  destruct (Nat.leb_spec (read_pos_ cb) (write_pos_ cb)); lia.
Qed.

Lemma peek_length (n : nat) (cb : t) :
  wf cb -> (n <= available_data cb)%nat -> length (peek n cb) = n.
Proof.
  intros Hwf Hn. pose proof (available_data_le cb Hwf) as Hle.
  destruct Hwf as [Hlen Hpos]. unfold peek.
  destruct (Nat.eqb_spec n 0); [subst; reflexivity|].
  rewrite Nat.min_l by assumption.
  destruct (Nat.eqb_spec n 0); [contradiction|].
  unfold memcpy_out.
  destruct (Nat.leb_spec (read_pos_ cb + n) (capacity_ cb)).
  - rewrite length_take, length_drop. lia.
  - rewrite length_app, !length_take, !length_drop. simpl. lia.
Qed.

Lemma read_length (n : nat) (cb : t) :
  wf cb -> (n <= available_data cb)%nat -> length (fst (read n cb)) = n.
Proof.
  intros Hwf Hn. pose proof (available_data_le cb Hwf) as Hle.
  destruct Hwf as [Hlen Hpos]. unfold read.
  destruct (Nat.eqb_spec n 0); [subst; reflexivity|].
  rewrite Nat.min_l by assumption.
  destruct (Nat.eqb_spec n 0); [contradiction|].
  unfold memcpy_out.
  destruct (Nat.leb_spec (read_pos_ cb + n) (capacity_ cb)); simpl.
  - rewrite length_take, length_drop. lia.
  - rewrite length_app, !length_take, !length_drop. simpl. lia.
Qed.

(** C5 at the case the claim singles out: a write into an empty buffer
    of capacity [C] that is accepted in full to the last free byte
    ([min(n, C - fill) = C]) returns [C], and leaves the write index on
    the read index.  The buffer then counts as empty: its fill is 0, it
    does not report itself full, and a read returns no byte at all; the
    next write is accepted again and lands on the unread bytes. *)
Theorem C5_filling_write_loses_bytes (C : nat) (src : list Z) :
  (0 < C)%nat -> (C <= length src)%nat ->
  let cb1 := snd (write src (create C)) in
  fst (write src (create C)) = Nat.min (length src) (C - available_data (create C)) /\
  fst (write src (create C)) = C /\
  buffer_ cb1 = take C src /\
  available_data cb1 = 0%nat /\
  full cb1 = false /\
  (forall n : nat, read n cb1 = ([], cb1)) /\
  (forall n : nat, run [Write src; Read n] (create C) = (take C src, [], cb1)) /\
  fst (write src cb1) = C.
Proof.
  intros HC Hlen.
  assert (W : write src (create C)
              = (C, mk C (take C src) 0 0)).
  { unfold write, create, available_data. simpl.
    destruct (Nat.eqb_spec (length src) 0); [lia|].
    rewrite Nat.sub_0_r, Nat.min_r by lia.
    destruct (Nat.eqb_spec C 0); [lia|].
    destruct (Nat.leb_spec C C); [|lia].
    rewrite Nat.Div0.mod_same. unfold memcpy_in. simpl.
    rewrite length_take, Nat.min_l by lia.
    rewrite drop_ge by (rewrite length_replicate; lia).
    rewrite app_nil_r. reflexivity. }
  assert (R : forall n, read n (mk C (take C src) 0 0) = ([], mk C (take C src) 0 0)).
  { intros n. unfold read, available_data. simpl.
    destruct (Nat.eqb_spec n 0); [reflexivity|].
    rewrite Nat.min_0_r. reflexivity. }
  rewrite W. simpl. repeat split.
  - unfold create, available_data. simpl. lia.
  - unfold full, available_data_unlocked. simpl.
    destruct C; [lia|reflexivity].
  - exact R.
  - intros n. unfold run. rewrite W, R. rewrite app_nil_r. reflexivity.
  - unfold write, available_data. simpl.
    destruct (Nat.eqb_spec (length src) 0); [lia|].
    rewrite Nat.sub_0_r, Nat.min_r by lia.
    destruct (Nat.eqb_spec C 0); [lia|].
    destruct (Nat.leb_spec C C); [|lia]. reflexivity.
Qed.

Lemma C5_filling_write_loses_bytes_witness :
  let src := [1; 2; 3; 4] in
  let cb1 := snd (write src (create 4)) in
  (0 < 4)%nat /\ (4 <= length src)%nat /\
  fst (write src (create 4)) = 4%nat /\
  available_data cb1 = 0%nat /\
  run [Write src; Read 4] (create 4) = (src, [], cb1).
Proof.
  assert (H0 : (0 < 4)%nat) by lia.
  assert (H1 : (4 <= length [1; 2; 3; 4])%nat) by (simpl; lia).
  pose proof (C5_filling_write_loses_bytes 4 [1; 2; 3; 4] H0 H1) as H.
  cbv zeta in H. destruct H as (_ & H2 & _ & H4 & _ & _ & H7 & _).
  cbv zeta. split; [exact H0|]. split; [exact H1|].
  split; [exact H2|]. split; [exact H4|]. exact (H7 4%nat).
Defined.

Local Ltac same_args := solve [reflexivity | repeat (f_equal; try lia)].

(** [(pos + n) % capacity_] for an index that does not pass the end. *)
Lemma wrap_index (a c : nat) :
  (a <= c)%nat ->
  (a mod c = if (a =? c)%nat then 0 else a)%nat.
Proof.
  intros H. destruct (Nat.eqb_spec a c) as [->|Hne].
  - apply Nat.Div0.mod_same.
  - apply Nat.mod_small. lia.
Qed.

Lemma contents_length (cb : t) :
  wf cb -> length (contents cb) = available_data cb.
Proof.
  intros [Hlen Hpos]. unfold contents, available_data.
  destruct (Nat.leb_spec (read_pos_ cb) (write_pos_ cb)).
  - rewrite length_take, length_drop. lia.
  - rewrite length_app, length_take, length_drop. lia.
Qed.

Lemma read_spec (k : nat) (cb : t) :
  wf cb ->
  fst (read k cb) = take k (contents cb) /\
  contents (snd (read k cb)) = drop k (contents cb) /\
  wf (snd (read k cb)).
Proof.
  intros Hwf. pose proof (contents_length cb Hwf) as HL.
  pose proof Hwf as [Hlen Hpos].
  unfold read.
  destruct (Nat.eqb_spec k 0) as [->|Hk].
  { simpl. rewrite take_0, drop_0. split; [|split]; auto. }
  destruct (Nat.eqb_spec (Nat.min k (available_data cb)) 0) as [Hz|Hnz].
  { assert (available_data cb = 0%nat) by lia.
    assert (Hnil : contents cb = []) by (apply nil_length_inv; lia).
    simpl. rewrite Hnil, take_nil, drop_nil. split; [|split]; auto. }
  destruct Hpos as [(Hc & Hw0 & Hr0)|[Hw Hr]].
  { exfalso. unfold available_data in Hnz. rewrite Hw0, Hr0 in Hnz. simpl in Hnz. lia. }
  set (n := Nat.min k (available_data cb)) in *.
  assert (Htake : take k (contents cb) = take n (contents cb)).
  { unfold n. destruct (Nat.le_ge_cases k (available_data cb)).
    - rewrite Nat.min_l by lia. reflexivity.
    - rewrite Nat.min_r by lia. rewrite !take_ge by lia. reflexivity. }
  assert (Hdrop : drop k (contents cb) = drop n (contents cb)).
  { unfold n. destruct (Nat.le_ge_cases k (available_data cb)).
    - rewrite Nat.min_l by lia. reflexivity.
    - rewrite Nat.min_r by lia. rewrite !drop_ge by lia. reflexivity. }
  rewrite Htake, Hdrop.
  assert (Hn : (n <= available_data cb)%nat) by (unfold n; lia).
  clearbody n. clear Htake Hdrop Hk k Hwf.
  unfold contents, available_data, memcpy_out, wf in *.
  destruct (Nat.leb_spec (read_pos_ cb) (write_pos_ cb)) as [Hrw|Hrw].
  - (* not wrapped *)
    destruct (Nat.leb_spec (read_pos_ cb + n) (capacity_ cb)) as [_|Hx]; [|lia].
    simpl.
    rewrite (wrap_index (read_pos_ cb + n) (capacity_ cb)) by lia.
    destruct (Nat.eqb_spec (read_pos_ cb + n) (capacity_ cb)); [lia|].
    destruct (Nat.leb_spec (read_pos_ cb + n) (write_pos_ cb)) as [_|Hx]; [|lia].
    repeat split; try lia.
    + rewrite take_take. same_args.
    + rewrite skipn_firstn_comm, drop_drop. same_args.
  - (* wrapped *)
    destruct (Nat.leb_spec (read_pos_ cb + n) (capacity_ cb)) as [Hle|Hgt]; simpl.
    + rewrite (wrap_index (read_pos_ cb + n) (capacity_ cb)) by lia.
      destruct (Nat.eqb_spec (read_pos_ cb + n) (capacity_ cb)) as [He|Hne].
      * simpl. rewrite Nat.sub_0_r, drop_0.
        repeat split; try lia.
        -- rewrite take_app_le by (rewrite length_drop; lia). reflexivity.
        -- rewrite drop_app_ge by (rewrite length_drop; lia).
           rewrite length_drop.
           replace (n - (length (buffer_ cb) - read_pos_ cb))%nat
             with 0%nat by lia.
           reflexivity.
      * destruct (Nat.leb_spec (read_pos_ cb + n) (write_pos_ cb)) as [Hx|_]; [lia|].
        repeat split; try lia.
        -- rewrite take_app_le by (rewrite length_drop; lia). reflexivity.
        -- rewrite drop_app_le by (rewrite length_drop; lia).
           rewrite drop_drop. reflexivity.
    + destruct (Nat.leb_spec (n - (capacity_ cb - read_pos_ cb)) (write_pos_ cb))
        as [_|Hx]; [|lia].
      repeat split; try lia.
      * rewrite take_app_ge by (rewrite length_drop; lia).
        rewrite length_drop.
        rewrite (take_ge (drop _ _)) by (rewrite length_drop; lia).
        rewrite drop_0. f_equal. rewrite take_take. same_args.
      * rewrite drop_app_ge by (rewrite length_drop; lia).
        rewrite length_drop, skipn_firstn_comm. same_args.
Qed.

Lemma write_spec (src : list Z) (cb : t) :
  wf cb ->
  (length src < capacity_ cb - available_data cb)%nat ->
  fst (write src cb) = length src /\
  contents (snd (write src cb)) = contents cb ++ src /\
  wf (snd (write src cb)).
Proof.
  intros Hwf Hfit. pose proof Hwf as [Hlen Hpos].
  unfold write.
  destruct (Nat.eqb_spec (length src) 0) as [Hz|Hnz].
  { apply nil_length_inv in Hz. subst src. simpl. rewrite app_nil_r. auto. }
  rewrite Nat.min_l by lia.
  destruct (Nat.eqb_spec (length src) 0) as [|_]; [contradiction|].
  rewrite firstn_all.
  destruct Hpos as [(Hc & Hw0 & Hr0)|[Hw Hr]]; [lia|].
  clear Hwf. unfold contents, available_data, memcpy_in, wf in *.
  destruct (Nat.leb_spec (read_pos_ cb) (write_pos_ cb)) as [Hrw|Hrw].
  - destruct (Nat.leb_spec (write_pos_ cb + length src) (capacity_ cb))
      as [Hle|Hgt]; simpl.
    + rewrite (wrap_index (write_pos_ cb + length src) (capacity_ cb)) by lia.
      destruct (Nat.eqb_spec (write_pos_ cb + length src) (capacity_ cb)) as [He|Hne].
      * destruct (Nat.leb_spec (read_pos_ cb) 0) as [Hx|_]; [lia|].
        split; [reflexivity|]. split.
        -- rewrite take_0, app_nil_r.
           rewrite (drop_ge (buffer_ cb)) by lia. rewrite app_nil_r.
           rewrite drop_app_le by (rewrite length_take; lia).
           rewrite skipn_firstn_comm. reflexivity.
        -- rewrite !length_app, length_take, length_drop. lia.
      * destruct (Nat.leb_spec (read_pos_ cb) (write_pos_ cb + length src))
          as [_|Hx]; [|lia].
        split; [reflexivity|]. split.
        -- rewrite drop_app_le by (rewrite length_take; lia).
           rewrite skipn_firstn_comm.
           rewrite take_app_ge by (rewrite length_take, length_drop; lia).
           rewrite length_take, length_drop.
           rewrite take_app_le by lia.
           rewrite (take_ge src) by lia. reflexivity.
        -- rewrite !length_app, length_take, length_drop. lia.
    + destruct (Nat.leb_spec (read_pos_ cb)
                  (length src - (capacity_ cb - write_pos_ cb))) as [Hx|_]; [lia|].
      split; [reflexivity|]. split.
      * assert (L1 : length (take (capacity_ cb - write_pos_ cb) src)
                     = (capacity_ cb - write_pos_ cb)%nat)
          by (rewrite length_take; lia).
        assert (L2 : length (take (length src - (capacity_ cb - write_pos_ cb))
                               (drop (capacity_ cb - write_pos_ cb) src))
                     = (length src - (capacity_ cb - write_pos_ cb))%nat)
          by (rewrite length_take, length_drop; lia).
        rewrite L1, L2.
        rewrite (drop_ge (buffer_ cb)) by lia. rewrite app_nil_r.
        rewrite take_app_le by lia. rewrite take_take, Nat.min_id.
        rewrite drop_app_ge by lia. rewrite L2.
        rewrite drop_drop.
        replace (length src - (capacity_ cb - write_pos_ cb)
                 + (read_pos_ cb - (length src - (capacity_ cb - write_pos_ cb))))%nat
          with (read_pos_ cb) by lia.
        rewrite drop_app_le by (rewrite length_take; lia).
        rewrite skipn_firstn_comm.
        rewrite <- !app_assoc. f_equal.
        rewrite take_take_drop.
        rewrite (take_ge src) by lia. reflexivity.
      * rewrite !length_app, !length_take, !length_drop, !length_app,
          !length_take, !length_drop. lia.
  - destruct (Nat.leb_spec (write_pos_ cb + length src) (capacity_ cb))
      as [Hle|Hgt]; [|lia].
    simpl. rewrite Nat.mod_small by lia.
    destruct (Nat.leb_spec (read_pos_ cb) (write_pos_ cb + length src)) as [Hx|_]; [lia|].
    split; [reflexivity|]. split.
    + rewrite drop_app_ge by (rewrite length_take; lia).
      rewrite length_take.
      rewrite drop_app_ge by lia.
      rewrite drop_drop.
      rewrite take_app_ge by (rewrite length_take; lia).
      rewrite length_take.
      rewrite take_app_le by lia. rewrite (take_ge src) by lia.
      rewrite <- !app_assoc. f_equal. f_equal. lia.
    + rewrite !length_app, length_take, length_drop. lia.
Qed.

(** The bodies of [write] and [read], the locking apart: as long as no
    write fills the buffer to the last byte, the bytes that were unread
    at the start followed by the bytes the writes accepted are the bytes
    the reads returned followed by the bytes still unread. *)
Theorem ring_is_fifo_below_capacity (ops : list op) (cb : t) :
  wf cb ->
  never_fills ops cb = true ->
  contents cb ++ fst (fst (run ops cb))
  = snd (fst (run ops cb)) ++ contents (snd (run ops cb)) /\
  wf (snd (run ops cb)).
Proof.
  revert cb. induction ops as [|[src|k] ops IH]; intros cb Hwf Hfit.
  - simpl. rewrite app_nil_r. auto.
  - simpl in Hfit. apply andb_true_iff in Hfit. destruct Hfit as [Hsrc Hrest].
    apply Nat.ltb_lt in Hsrc.
    destruct (write_spec src cb Hwf Hsrc) as (Hn & Hc & Hwf').
    specialize (IH _ Hwf' Hrest).
    cbn [run]. destruct (write src cb) as [n cb1]. cbn [fst snd] in *.
    destruct (run ops cb1) as [[acc out] cb2]. cbn [fst snd] in *.
    destruct IH as [IH1 IH2]. split; [|exact IH2].
    subst n. rewrite firstn_all, app_assoc, <- Hc. exact IH1.
  - simpl in Hfit.
    destruct (read_spec k cb Hwf) as (Hb & Hc & Hwf').
    specialize (IH _ Hwf' Hfit).
    cbn [run]. destruct (read k cb) as [bytes cb1]. cbn [fst snd] in *.
    destruct (run ops cb1) as [[acc out] cb2]. cbn [fst snd] in *.
    destruct IH as [IH1 IH2]. split; [|exact IH2].
    rewrite <- app_assoc, <- IH1, Hc, Hb, app_assoc, take_drop. reflexivity.
Qed.

Lemma ring_is_fifo_below_capacity_witness :
  let ops := [Write [1; 2; 3]; Read 2; Write [4; 5]; Read 4] in
  wf (create 4) /\
  never_fills ops (create 4) = true /\
  run ops (create 4)
  = ([1; 2; 3; 4; 5], [1; 2; 3; 4; 5], snd (run ops (create 4))) /\
  contents (create 4) ++ fst (fst (run ops (create 4)))
  = snd (fst (run ops (create 4))) ++ contents (snd (run ops (create 4))).
Proof.
  cbv zeta. split; [apply create_wf|]. split; [reflexivity|].
  split; [reflexivity|].
  exact (proj1 (ring_is_fifo_below_capacity
                  [Write [1; 2; 3]; Read 2; Write [4; 5]; Read 4] (create 4)
                  (create_wf 4) eq_refl)).
Defined.

End RingBuffer.

(** ** The wire protocol *)

Section WireProtocol.
Import Protocol.

(** The members sit where natural alignment puts them. *)
Lemma members_at_natural_offsets (h : MessageHeader) :
  field_offsets = [0; 4; 8; 16; 24]%nat /\
  struct_size = 32%nat /\
  length (object_bytes h) = struct_size /\
  slice 0 4 (object_bytes h) = le_bytes 4 (magic h) /\
  slice 4 2 (object_bytes h) = le_bytes 2 (type h) /\
  slice 8 4 (object_bytes h) = le_bytes 4 (payload_size h) /\
  slice 16 8 (object_bytes h) = le_bytes 8 (timestamp h) /\
  slice 24 2 (object_bytes h) = le_bytes 2 (header_crc h).
Proof. repeat split. Qed.

Lemma le_bytes_length (n : nat) (v : Z) : length (le_bytes n v) = n.
Proof. revert v. induction n; intros v; simpl; auto. Qed.

Lemma le_value_le_bytes (n : nat) (v : Z) :
  le_value (le_bytes n v) = v mod 256 ^ Z.of_nat n.
Proof.
  revert v. induction n as [|n IH]; intros v.
  - simpl. rewrite Z.mod_1_r. reflexivity.
  - cbn [le_bytes le_value]. rewrite IH.
    rewrite Nat2Z.inj_succ, Z.pow_succ_r by lia.
    rewrite Z.rem_mul_r by lia. reflexivity.
Qed.

Lemma object_bytes_length (h : MessageHeader) : length (object_bytes h) = 32%nat.
Proof. reflexivity. Qed.

Lemma serialize_length (h : MessageHeader) : length (serialize h) = 20%nat.
Proof. reflexivity. Qed.

(** The CRC runs over the first 18 bytes of what [serialize] emits. *)
Lemma calculate_crc_serialized (h : MessageHeader) :
  calculate_crc h = crc16 (take 18 (serialize h)).
Proof. reflexivity. Qed.

Lemma crc16_snoc (data : list Z) (b : Z) :
  crc16 (data ++ [b]) = Nat.iter 8 crc_bit (Z.lxor (crc16 data) b).
Proof. unfold crc16. rewrite fold_left_app. reflexivity. Qed.

Lemma crc_bit_spec (c : Z) :
  crc_bit c = if Z.odd c then Z.lxor (c / 2) 0xA001 else c / 2.
Proof.
  unfold crc_bit. rewrite Z.bit0_odd, Z.shiftr_div_pow2 by lia.
  reflexivity.
Qed.

(** [is_valid()] is true exactly when the magic is 0xABCD1234, the
    payload size is at most 100 MiB and the stored CRC is the CRC-16 of
    the first eighteen bytes of the header object (initial value 0xFFFF,
    for each byte an exclusive-or into the low byte followed by eight
    rounds of "shift right, and exclusive-or 0xA001 when the bit shifted
    out was 1").  The checks are made in that order and the first one
    that fails decides.  Which members those eighteen bytes hold is the
    subject of [calculate_crc_covers]. *)
Lemma is_valid_checks_in_order (h : MessageHeader) :
  (is_valid h = true <->
     magic h = 0xABCD1234 /\
     payload_size h <= 100 * 1024 * 1024 /\
     header_crc h = crc16 (take 18 (serialize h))) /\
  (magic h <> 0xABCD1234 -> is_valid h = false) /\
  (payload_size h > 100 * 1024 * 1024 -> is_valid h = false) /\
  (header_crc h <> crc16 (take 18 (serialize h)) -> is_valid h = false) /\
  is_valid h =
    (if negb (magic h =? 0xABCD1234) then false
     else if payload_size h >? 100 * 1024 * 1024 then false
     else negb (negb (header_crc h =? crc16 (take 18 (serialize h))))) /\
  crc16 [] = 0xFFFF /\
  (forall data b,
     crc16 (data ++ [b]) = Nat.iter 8 crc_bit (Z.lxor (crc16 data) b)) /\
  (forall c, crc_bit c = if Z.odd c then Z.lxor (c / 2) 0xA001 else c / 2).
Proof.
  rewrite <- calculate_crc_serialized.
  assert (E : is_valid h =
              (if negb (magic h =? 0xABCD1234) then false
               else if payload_size h >? 100 * 1024 * 1024 then false
               else negb (negb (header_crc h =? calculate_crc h)))).
  { unfold is_valid.
    change MAGIC_NUMBER with 0xABCD1234.
    change MAX_PAYLOAD_SIZE with (100 * 1024 * 1024).
    destruct (magic h =? 0xABCD1234),
             (payload_size h >? 100 * 1024 * 1024),
             (header_crc h =? calculate_crc h); reflexivity. }
  split; [|split; [|split; [|split; [|split; [exact E|]]]]].
  - rewrite E.
    destruct (Z.eqb_spec (magic h) 0xABCD1234);
      destruct (Z.gtb_spec (payload_size h) (100 * 1024 * 1024));
      destruct (Z.eqb_spec (header_crc h) (calculate_crc h)); simpl;
      split; try discriminate; try lia; intuition lia.
  - intros H. rewrite E.
    destruct (Z.eqb_spec (magic h) 0xABCD1234); [contradiction|reflexivity].
  - intros H. rewrite E. destruct (magic h =? 0xABCD1234); simpl; [|reflexivity].
    destruct (Z.gtb_spec (payload_size h) (100 * 1024 * 1024)); [reflexivity|lia].
  - intros H. rewrite E. destruct (magic h =? 0xABCD1234); simpl; [|reflexivity].
    destruct (payload_size h >? 100 * 1024 * 1024); [reflexivity|].
    destruct (Z.eqb_spec (header_crc h) (calculate_crc h)); [contradiction|reflexivity].
  - split; [reflexivity|]. split; [apply crc16_snoc | apply crc_bit_spec].
Qed.

End WireProtocol.

Section WireLayout.
Import Protocol.

(** What [to_bytes] emits for any message: the first 20 bytes of the
    header object followed by the payload.  The payload size sits at
    offset 8 behind two padding bytes, only the low four bytes of the
    timestamp are emitted (at 16), and [header_crc], which lives at
    offset 24, is not emitted at all. *)
Lemma to_bytes_layout (m : Message) :
  to_bytes m
  = le_bytes 4 (magic (header_ m)) ++ le_bytes 2 (type (header_ m))
      ++ le_bytes 2 (pad_6 (header_ m))
      ++ le_bytes 4 (payload_size (header_ m))
      ++ le_bytes 4 (pad_12 (header_ m))
      ++ le_bytes 4 (timestamp (header_ m))
      ++ payload_ m.
Proof. reflexivity. Qed.

(** The CRC is CRC-16/MODBUS: its check value on "123456789". *)
Lemma crc16_check_value :
  crc16 [49; 50; 51; 52; 53; 54; 55; 56; 57] = 0x4B37.
Proof. reflexivity. Qed.

Lemma to_bytes_length (m : Message) :
  length (to_bytes m) = (20 + length (payload_ m))%nat.
Proof. unfold to_bytes. rewrite length_app. reflexivity. Qed.

Lemma to_bytes_without_crc (h : MessageHeader) (c : Z) (p : list Z) (v : bool) :
  to_bytes (mkMessage (with_crc c h) p v) = to_bytes (mkMessage h p v).
Proof. reflexivity. Qed.

(** [deserialize] leaves the stored CRC of the receiving header as it
    was, whatever the 20 bytes are. *)
Lemma deserialize_keeps_crc (buffer : list Z) (h : MessageHeader) :
  (20 <= length buffer)%nat ->
  header_crc (deserialize buffer h) = header_crc h mod 2 ^ 16.
Proof.
  intros Hlen. unfold deserialize, of_object_bytes, slice, HEADER_SIZE. simpl header_crc.
  rewrite drop_app_ge by (rewrite length_take; lia).
  rewrite length_take, Nat.min_l by lia.
  change (le_value (le_bytes 2 (header_crc h)) = header_crc h mod 2 ^ 16).
  apply (le_value_le_bytes 2).
Qed.

(** C2 on [sample_header]: the 20 serialized bytes carry the magic at
    0 and the type at 4, but bytes 6..9 are not the payload size (it is
    at 8..11), bytes 10..17 are not the timestamp (its low half is at
    16..19) and bytes 18..19 are not the CRC (it is not in the stream). *)
Theorem C2_header_bytes_follow_struct_padding :
  serialize sample_header
  = [0x34; 0x12; 0xCD; 0xAB;  1; 0;  0; 0;  0; 4; 0; 0;  0; 0; 0; 0;  7; 0; 0; 0] /\
  header_crc sample_header = 62684 /\
  slice 0 4 (serialize sample_header) = le_bytes 4 0xABCD1234 /\
  slice 4 2 (serialize sample_header) = le_bytes 2 1 /\
  slice 6 4 (serialize sample_header) <> le_bytes 4 1024 /\
  slice 10 8 (serialize sample_header) <> le_bytes 8 7 /\
  slice 18 2 (serialize sample_header) <> le_bytes 2 (header_crc sample_header) /\
  (forall m : Message,
     length (to_bytes m) = (20 + length (payload_ m))%nat /\
     slice 8 4 (to_bytes m) = le_bytes 4 (payload_size (header_ m)) /\
     slice 16 4 (to_bytes m) = le_bytes 4 (timestamp (header_ m)) /\
     forall c, to_bytes (mkMessage (with_crc c (header_ m)) (payload_ m) (valid_ m))
               = to_bytes m).
Proof.
  split; [reflexivity|]. split; [reflexivity|].
  split; [reflexivity|]. split; [reflexivity|].
  split; [vm_compute; congruence|]. split; [vm_compute; congruence|].
  split; [vm_compute; congruence|].
  intros m. split; [apply to_bytes_length|].
  split; [reflexivity|]. split; reflexivity.
Qed.

End WireLayout.

Section RoundTrip.
Import Protocol.

Lemma from_bytes_keeps_crc (alloc_ok : bool) (data : list Z) (m : Message) :
  (20 <= length data)%nat ->
  header_crc (header_ (snd (from_bytes alloc_ok data m)))
  = header_crc (header_ m) mod 2 ^ 16.
Proof.
  intros Hlen. unfold from_bytes, HEADER_SIZE.
  destruct (Nat.ltb_spec (length data) 20); [lia|].
  pose proof (deserialize_keeps_crc data (header_ m) Hlen) as K.
  destruct (negb (is_valid _)); [exact K|].
  destruct (_ <? _); [exact K|].
  destruct (_ >? 0); [destruct alloc_ok|]; exact K.
Qed.

(** C1 on the heartbeat: the message is valid and has an empty payload,
    its 20 bytes do not contain its CRC, and [from_bytes] on them fails:
    the receiver compares the CRC of the bytes with the CRC it held
    before.  On [late_frame], [from_bytes] succeeds and the timestamp
    comes back as 0.  In general the CRC a receiver holds after
    [from_bytes] is the one it held before. *)
Theorem C1_round_trip_fails :
  message_is_valid heartbeat_42 = true /\
  payload_size (header_ heartbeat_42) <= 100 * 1024 * 1024 /\
  to_bytes heartbeat_42
  = [0x34; 0x12; 0xCD; 0xAB;  200; 0;  0; 0;  0; 0; 0; 0;  0; 0; 0; 0;  42; 0; 0; 0] /\
  fst (from_bytes true (to_bytes heartbeat_42) received) = false /\
  message_is_valid (snd (from_bytes true (to_bytes heartbeat_42) received)) = false /\
  header_crc (header_ heartbeat_42) <> header_crc (header_ received) /\
  header_crc (header_ (snd (from_bytes true (to_bytes heartbeat_42) received)))
  = header_crc (header_ received) /\
  fst (from_bytes true (to_bytes late_frame) received) = true /\
  get_timestamp late_frame = 2 ^ 32 /\
  get_timestamp (snd (from_bytes true (to_bytes late_frame) received)) = 0 /\
  (forall alloc_ok data m,
     (20 <= length data)%nat ->
     header_crc (header_ (snd (from_bytes alloc_ok data m)))
     = header_crc (header_ m) mod 2 ^ 16).
Proof.
  repeat (split; [vm_compute; first [reflexivity | congruence]|]).
  exact from_bytes_keeps_crc.
Qed.

End RoundTrip.

(** ** The receive engine *)

Section ReceiveEngine.
Import Protocol Connection.

(** The bodies on [conn_with_frame]: the header of the buffered frame
    validates, the complete frame is read, its deserialization fails,
    and the ring buffer is not cleared: the five bytes behind the frame
    are still in it. *)
Lemma deserialization_failure_keeps_buffer :
  let rb := recv_buffer_ conn_with_frame in
  let header :=
    deserialize (CircularBuffer.peek HEADER_SIZE rb)
                (new_header zero_padding FRAME_DATA 0 0) in
  let r := try_extract_message zero_padding true reused_message conn_with_frame in
  CircularBuffer.available_data rb = 25%nat /\
  is_valid header = true /\
  fst (from_bytes true (fst (CircularBuffer.read 20 rb)) reused_message) = false /\
  fst (fst r) = false /\
  cerr (snd r) = [DeserializeFailed 7] /\
  connected_ (snd r) = true /\
  CircularBuffer.available_data (recv_buffer_ (snd r)) = 5%nat /\
  CircularBuffer.peek 5 (recv_buffer_ (snd r)) = next_bytes /\
  recv_buffer_ (snd r) <> CircularBuffer.clear rb.
Proof.
  cbv zeta. repeat (split; [vm_compute; reflexivity|]).
  vm_compute. congruence.
Qed.

End ReceiveEngine.

(** ** Fan-out *)

Section FanOut.
Import Protocol Connection AVServer.

Lemma put_connection_same (id : Z) (c : Connection.t) (cs : connections) :
  get_connection id cs = Some c -> put_connection id c cs = cs.
Proof.
  induction cs as [|[k c0] cs IH]; simpl; [reflexivity|].
  destruct (k =? id).
  - intros [= ->]. reflexivity.
  - intros H. rewrite (IH H). reflexivity.
Qed.

(** [send] on a connected socket whose peer takes no more bytes never
    returns, and hands nothing over. *)
Lemma send_blocks_on_stuck_peer (msg : Message) (c : Connection.t) :
  connected_ c = true ->
  broken (socket_ c) = false ->
  window (socket_ c) = 0%nat ->
  Connection.send msg c = (SendBlocks, c).
Proof.
  intros Hc Hb Hw. unfold Connection.send. rewrite Hc.
  change (negb true) with false. cbv beta iota.
  pose proof (to_bytes_length msg) as L.
  destruct (to_bytes msg) as [|b bytes]; [simpl in L; lia|].
  cbn [length send_loop]. unfold sys_send. rewrite Hb, Hw.
  destruct c; reflexivity.
Qed.

(** The fuel of [send_loop] is never what ends it: any amount from the
    length of the data on gives the same result. *)
Lemma send_loop_fuel_suffices (fuel1 fuel2 : nat) (data : list Z) (s : Socket) :
  (length data <= fuel1)%nat -> (length data <= fuel2)%nat ->
  send_loop fuel1 data s = send_loop fuel2 data s.
Proof.
  revert fuel2 data s.
  induction fuel1 as [|fuel1 IH]; intros fuel2 data s H1 H2;
    destruct data as [|b data]; try (destruct fuel2; reflexivity).
  - simpl in H1. lia.
  - destruct fuel2 as [|fuel2]; [simpl in H2; lia|].
    cbn [send_loop]. unfold sys_send.
    destruct (broken s); [reflexivity|].
    destruct (window s) as [|w] eqn:Hw; [reflexivity|].
    apply IH; rewrite length_drop; cbn [length] in *; lia.
Qed.

(** C7 in the source: [distribution_loop] sends to the subscribers one
    after the other on its own thread.  When the [send] to the
    subscriber at the head of the list blocks, the loop does not come to
    its end, and no byte of the message reaches any other subscriber:
    what has been delivered to every connection is what had been
    delivered before. *)
Theorem C7_stuck_subscriber_stalls_fan_out (msg : Message) (cid : Z)
    (session : ClientSession) (rest : list (Z * ClientSession))
    (srv : AVServer.t) (conn : Connection.t) :
  is_active session = true ->
  get_connection cid (tcp_connections srv) = Some conn ->
  connected_ conn = true ->
  broken (socket_ conn) = false ->
  window (socket_ conn) = 0%nat ->
  fan_out msg ((cid, session) :: rest) srv = (false, srv) /\
  forall id, delivered id (snd (fan_out msg ((cid, session) :: rest) srv))
             = delivered id srv.
Proof.
  intros Ha Hg Hc Hb Hw.
  assert (E : fan_out msg ((cid, session) :: rest) srv = (false, srv)).
  { cbn [fan_out]. rewrite Ha, Hg.
    rewrite (send_blocks_on_stuck_peer msg conn Hc Hb Hw).
    rewrite (put_connection_same cid conn _ Hg). destruct srv; reflexivity. }
  split; [exact E|]. intros id. rewrite E. reflexivity.
Qed.

Lemma C7_stuck_subscriber_stalls_fan_out_witness :
  is_active (mkSession 1 5000000 true) = true /\
  get_connection 1 (tcp_connections two_subscribers) = Some stuck_peer /\
  connected_ stuck_peer = true /\
  broken (socket_ stuck_peer) = false /\
  window (socket_ stuck_peer) = 0%nat /\
  fan_out heartbeat_42 both_active two_subscribers = (false, two_subscribers) /\
  delivered 2 (snd (fan_out heartbeat_42 both_active two_subscribers)) = [].
Proof.
  do 5 (split; [reflexivity|]).
  destruct (C7_stuck_subscriber_stalls_fan_out heartbeat_42 1
              (mkSession 1 5000000 true) [(2, mkSession 2 5000000 true)]
              two_subscribers stuck_peer
              eq_refl eq_refl eq_refl eq_refl eq_refl) as [E D].
  split; [exact E|]. exact (D 2).
Defined.

(** With the same two subscribers in the other order the healthy one is
    served (and the loop still does not end). *)
Lemma healthy_first_is_served :
  let healthy := Connection.mk 1 (mkSocket false 4096 []) true
                   (CircularBuffer.create 64) [] in
  let stuck := Connection.mk 2 (mkSocket false 0 []) true
                 (CircularBuffer.create 64) [] in
  let srv := AVServer.mk [(1, healthy); (2, stuck)] (mkStats 0 0 0 0) in
  fst (fan_out heartbeat_42 both_active srv) = false /\
  delivered 1 (snd (fan_out heartbeat_42 both_active srv)) = to_bytes heartbeat_42.
Proof. split; reflexivity. Qed.

End FanOut.

(** ** The encoder *)

Section DoubleProducts.
Import Float64.

(** The three constants are the doubles nearest to 3/4, 3/5 and 2/5:
    each is within half a unit in the last place of the fraction. *)
Lemma ratios_are_nearest :
  4 * mant d_0_75 = 3 * 2 ^ 53 /\
  2 * Z.abs (5 * mant d_0_60 - 3 * 2 ^ 53) <= 5 /\
  2 * Z.abs (5 * mant d_0_40 - 2 * 2 ^ 54) <= 5 /\
  2 ^ 52 <= mant d_0_75 < 2 ^ 53 /\
  2 ^ 52 <= mant d_0_60 < 2 ^ 53 /\
  2 ^ 52 <= mant d_0_40 < 2 ^ 53.
Proof. vm_compute. intuition congruence. Qed.

(** Rounding an integer of more than 53 bits. *)
Lemma round53_big (n : Z) :
  2 ^ 53 <= n ->
  exists s m,
    round53 n = (m, s) /\ 0 < s /\
    2 ^ 52 * 2 ^ s <= n < 2 ^ 53 * 2 ^ s /\
    n / 2 ^ s <= m <= n / 2 ^ s + 1 /\
    (2 ^ s < 2 * (n mod 2 ^ s) -> m = n / 2 ^ s + 1) /\
    (2 * (n mod 2 ^ s) < 2 ^ s -> m = n / 2 ^ s).
Proof.
  intros Hn. unfold round53.
  assert (Hpos : 0 < n) by (assert (0 < 2 ^ 53) by (apply Z.pow_pos_nonneg; lia); lia).
  assert (Hlog : 53 <= Z.log2 n) by (apply Z.log2_le_pow2; lia).
  destruct (Z.log2_spec n Hpos) as [Hlo Hhi].
  set (s := Z.log2 n + 1 - 53) in *.
  assert (Hs : 0 < s) by (unfold s; lia).
  destruct (Z.leb_spec s 0) as [Hle|_]; [lia|].
  assert (E1 : 2 ^ Z.log2 n = 2 ^ 52 * 2 ^ s).
  { rewrite <- Z.pow_add_r by lia. f_equal. unfold s. lia. }
  assert (E2 : 2 ^ Z.succ (Z.log2 n) = 2 ^ 53 * 2 ^ s).
  { rewrite <- Z.pow_add_r by lia. f_equal. unfold s. lia. }
  assert (E3 : 2 ^ s = 2 * 2 ^ (s - 1)).
  { rewrite <- Z.pow_succ_r by lia. f_equal. lia. }
  exists s.
  destruct ((2 ^ (s - 1) <? n mod 2 ^ s)
            || ((n mod 2 ^ s =? 2 ^ (s - 1)) && Z.odd (n / 2 ^ s))) eqn:Hup.
  - exists (n / 2 ^ s + 1). repeat split; lia.
  - exists (n / 2 ^ s). repeat split; lia.
Qed.

(** The product of a 32-bit integer and a double [M * 2^-K] when it
    needs rounding, cast back to an integer. *)
Lemma to_uint32_mul_big (n M K : Z) :
  2 ^ 53 <= n * M -> n * M < 2 ^ 85 -> 33 <= K ->
  exists s m,
    0 < s <= 32 /\
    0 < 2 ^ s <= 2 ^ 32 /\ 0 < 2 ^ (K - s) /\ 2 ^ (K - s) * 2 ^ s = 2 ^ K /\
    2 ^ 52 * 2 ^ s <= n * M < 2 ^ 53 * 2 ^ s /\
    n * M / 2 ^ s <= m <= n * M / 2 ^ s + 1 /\
    (2 ^ s < 2 * (n * M mod 2 ^ s) -> m = n * M / 2 ^ s + 1) /\
    (2 * (n * M mod 2 ^ s) < 2 ^ s -> m = n * M / 2 ^ s) /\
    to_uint32 (mul (of_uint32 n) (mkDouble M (- K))) = m / 2 ^ (K - s).
Proof.
  intros Hlo Hhi HK.
  destruct (round53_big (n * M) Hlo) as (s & m & Hr & Hs & Hb & Hm & Hup & Hdn).
  assert (Hs32 : s <= 32).
  { destruct (Z.le_gt_cases s 32) as [|Hgt]; [assumption|].
    assert (2 ^ 33 <= 2 ^ s) by (apply Z.pow_le_mono_r; lia). lia. }
  assert (HP : 0 < 2 ^ s) by (apply Z.pow_pos_nonneg; lia).
  assert (HP32 : 2 ^ s <= 2 ^ 32) by (apply Z.pow_le_mono_r; lia).
  assert (HD : 0 < 2 ^ (K - s)) by (apply Z.pow_pos_nonneg; lia).
  assert (HDP : 2 ^ (K - s) * 2 ^ s = 2 ^ K).
  { rewrite <- Z.pow_add_r by lia. f_equal. lia. }
  exists s, m.
  repeat split; try assumption; try lia.
  unfold mul, of_uint32, to_uint32. cbn [mant expo]. rewrite Hr. cbn [mant expo].
  destruct (Z.leb_spec 0 (0 + - K + s)) as [Hge|_]; [lia|].
  f_equal. f_equal. lia.
Qed.

Lemma mul_0_75_exact (n : Z) :
  0 <= n < 2 ^ 32 ->
  to_uint32 (mul (of_uint32 n) d_0_75) = n * 3 / 4.
Proof.
  intros Hn. change d_0_75 with (mkDouble 6755399441055744 (- (53))).
  destruct (Z.lt_ge_cases (n * 6755399441055744) (2 ^ 53)) as [Hsmall|Hbig].
  - assert (n = 0 \/ n = 1) as [-> | ->] by lia; reflexivity.
  - destruct (to_uint32_mul_big n 6755399441055744 53 Hbig)
      as (s & m & Hs & HP & HD & HDP & Hb & Hm & Hup & Hdn & ->); [lia|lia|].
    assert (E51 : 2 ^ 51 = 2 ^ (51 - s) * 2 ^ s).
    { rewrite <- Z.pow_add_r by lia. f_equal. lia. }
    assert (EN : n * 6755399441055744 = n * 3 * 2 ^ (51 - s) * 2 ^ s).
    { rewrite <- Z.mul_assoc, <- E51. change (2 ^ 51) with 2251799813685248. ring. }
    assert (Hr : n * 6755399441055744 mod 2 ^ s = 0).
    { rewrite EN. apply Z.mod_mul. lia. }
    rewrite Hdn by lia.
    rewrite Z.div_div by lia. rewrite (Z.mul_comm (2 ^ s)), HDP.
    replace (n * 6755399441055744) with (n * 3 * 2 ^ 51)
      by (change (2 ^ 51) with 2251799813685248; ring).
    change (2 ^ 53) with (4 * 2 ^ 51).
    rewrite Z.div_mul_cancel_r by lia. reflexivity.
Qed.

Lemma mul_0_60_exact (n : Z) :
  0 <= n < 2 ^ 32 ->
  to_uint32 (mul (of_uint32 n) d_0_60) = n * 3 / 5.
Proof.
  intros Hn. change d_0_60 with (mkDouble 5404319552844595 (- (53))).
  destruct (Z.lt_ge_cases (n * 5404319552844595) (2 ^ 53)) as [Hsmall|Hbig].
  - assert (n = 0 \/ n = 1) as [-> | ->] by lia; reflexivity.
  - destruct (to_uint32_mul_big n 5404319552844595 53 Hbig)
      as (s & m & Hs & HP & HD & HDP & Hb & Hm & Hup & Hdn & ->); [lia|lia|].
    set (N := n * 5404319552844595) in *.
    set (P := 2 ^ s) in *. set (D := 2 ^ (53 - s)) in *.
    set (k := n * 3 / 5).
    pose proof (Z.div_mod (n * 3) 5 ltac:(lia)) as Hk.
    pose proof (Z.mod_pos_bound (n * 3) 5 ltac:(lia)) as Ht.
    fold k in Hk. set (t := (n * 3) mod 5) in *.
    assert (HkDP : k * D * P = k * 2 ^ 53) by (rewrite <- Z.mul_assoc, HDP; reflexivity).
    assert (H5N : 5 * N = (5 * k + t) * 2 ^ 53 - n) by (unfold N; lia).
    clearbody N P D k t.
    symmetry. apply Z.div_unique with (r := m - k * D).
    2:{ ring. }
    left.
    destruct (Z.eq_dec t 0) as [Ht0|Ht0].
    + (* the exact product is just below k * 2^53 and rounds up to it *)
      assert (Hj : exists j, n = 5 * j) by (exists (2 * n - 3 * k); lia).
      destruct Hj as [j Hj].
      assert (Hkj : k = 3 * j) by lia.
      assert (HN : N = P * (k * D - 1) + (P - j)) by lia.
      assert (Hjpos : 0 < j) by lia.
      assert (HkP : k <= P) by lia.
      assert (Hq : N / P = k * D - 1).
      { symmetry. apply Z.div_unique with (r := P - j); [left; lia | exact HN]. }
      assert (Hr : N mod P = P - j).
      { symmetry. apply Z.mod_unique with (q := k * D - 1); [left; lia | exact HN]. }
      rewrite Hup by lia. lia.
    + (* the exact product is well inside (k * 2^53, (k+1) * 2^53) *)
      set (g := N - k * 2 ^ 53).
      assert (H5g : 5 * g = t * 2 ^ 53 - n) by (unfold g; lia).
      assert (Hg : 0 <= g < 2 ^ 53 - P) by lia.
      assert (HN : N = k * D * P + g) by (unfold g; lia).
      assert (Hq : N / P = k * D + g / P).
      { rewrite HN. apply Z.div_add_l. lia. }
      assert (Hgq : 0 <= g / P < D - 1).
      { split; [apply Z.div_pos; lia|].
        apply Z.div_lt_upper_bound; lia. }
      lia.
Qed.

Lemma mul_0_40_exact (n : Z) :
  0 <= n < 2 ^ 32 ->
  to_uint32 (mul (of_uint32 n) d_0_40) = n * 2 / 5.
Proof.
  intros Hn. change d_0_40 with (mkDouble 7205759403792794 (- (54))).
  destruct (Z.lt_ge_cases (n * 7205759403792794) (2 ^ 53)) as [Hsmall|Hbig].
  - assert (n = 0 \/ n = 1) as [-> | ->] by lia; reflexivity.
  - destruct (to_uint32_mul_big n 7205759403792794 54 Hbig)
      as (s & m & Hs & HP & HD & HDP & Hb & Hm & Hup & Hdn & ->); [lia|lia|].
    set (N := n * 7205759403792794) in *.
    set (P := 2 ^ s) in *. set (D := 2 ^ (54 - s)) in *.
    set (k := n * 2 / 5).
    pose proof (Z.div_mod (n * 2) 5 ltac:(lia)) as Hk.
    pose proof (Z.mod_pos_bound (n * 2) 5 ltac:(lia)) as Ht.
    fold k in Hk. set (t := (n * 2) mod 5) in *.
    assert (HkDP : k * D * P = k * 2 ^ 54) by (rewrite <- Z.mul_assoc, HDP; reflexivity).
    assert (H5N : 5 * N = (5 * k + t) * 2 ^ 54 + 2 * n) by (unfold N; lia).
    clearbody N P D k t.
    symmetry. apply Z.div_unique with (r := m - k * D).
    2:{ ring. }
    left.
    destruct (Z.eq_dec t 0) as [Ht0|Ht0].
    + (* the exact product is just above k * 2^54 and rounds down to it *)
      assert (HN : N = P * (k * D) + k) by lia.
      assert (HkP : 0 <= k /\ 2 * k < P) by lia.
      assert (Hq : N / P = k * D).
      { symmetry. apply Z.div_unique with (r := k); [left; lia | exact HN]. }
      assert (Hr : N mod P = k).
      { symmetry. apply Z.mod_unique with (q := k * D); [left; lia | exact HN]. }
      rewrite Hdn by lia. lia.
    + set (g := N - k * 2 ^ 54).
      assert (H5g : 5 * g = t * 2 ^ 54 + 2 * n) by (unfold g; lia).
      assert (Hg : 0 <= g < 2 ^ 54 - P) by lia.
      assert (HN : N = k * D * P + g) by (unfold g; lia).
      assert (Hq : N / P = k * D + g / P).
      { rewrite HN. apply Z.div_add_l. lia. }
      assert (Hgq : 0 <= g / P < D - 1).
      { split; [apply Z.div_pos; lia|].
        apply Z.div_lt_upper_bound; lia. }
      lia.
Qed.

End DoubleProducts.

Section Encoder.
Import Frame CompressionEngine.

Lemma compress_data_exact (e : CompressionEngine.t) (n : Z) :
  0 <= n < 2 ^ 32 ->
  compress_data e n
  = n * fst (tier_fraction (cfg_quality (config_ e)))
      / snd (tier_fraction (cfg_quality (config_ e))).
Proof.
  intros Hn. unfold compress_data, compression_ratio, tier_fraction.
  destruct (80 <=? cfg_quality (config_ e)); [apply mul_0_75_exact; exact Hn|].
  destruct (50 <=? cfg_quality (config_ e));
    [apply mul_0_60_exact | apply mul_0_40_exact]; exact Hn.
Qed.

(** [compress_data] in integers: the double product, cast back, is the
    input size times 3/4, 3/5 or 2/5 rounded down, for every 32-bit
    input size. *)
Theorem compress_data_is_tier_fraction (e : CompressionEngine.t) (n : Z) :
  0 <= n < 2 ^ 32 ->
  compress_data e n
  = if 80 <=? cfg_quality (config_ e) then n * 3 / 4
    else if 50 <=? cfg_quality (config_ e) then n * 3 / 5
    else n * 2 / 5.
Proof.
  intros Hn. rewrite (compress_data_exact e n Hn). unfold tier_fraction.
  destruct (80 <=? _); [|destruct (50 <=? _)]; reflexivity.
Qed.

Lemma compress_data_is_tier_fraction_witness :
  0 <= 100000 < 2 ^ 32 /\ compress_data running_engine 100000 = 75000.
Proof.
  assert (H : 0 <= 100000 < 2 ^ 32) by (split; [discriminate|reflexivity]).
  split; [exact H|].
  exact (compress_data_is_tier_fraction running_engine 100000 H).
Defined.

Lemma resize_length (n : nat) (l : list Z) : length (resize n l) = n.
Proof. unfold resize. rewrite length_app, length_take, length_replicate. lia. Qed.

Lemma yuv420_size_range (f : AVFrame) : 0 <= yuv420_size f < 2 ^ 32.
Proof.
  unfold yuv420_size.
  pose proof (Z.mod_pos_bound (width f * height f * 3) (2 ^ 32) ltac:(lia)) as H.
  split; [apply Z.div_pos; lia|].
  apply Z.div_lt_upper_bound; lia.
Qed.

(** Against C8 as stated: [encode_video] on the captured frame
    succeeds at quality 80 and gives 2332800 bytes, three quarters of
    1920*1080*3/2, where three quarters of the 100000 input bytes are
    75000. *)
Lemma C8_video_size_not_from_input_bytes :
  exists out e',
    encode_video (Some captured_video) (Some pool_frame) running_engine
    = (true, Some out, e') /\
    cfg_quality (config_ running_engine) = 80 /\
    timestamp out = timestamp captured_video /\
    size captured_video = 100000 /\
    size out = 2332800 /\
    size out <> size captured_video * 3 / 4.
Proof.
  eexists _, _. split; [reflexivity|].
  repeat split; vm_compute; congruence.
Qed.

(** C8, amended.  A call of [encode_video] or [encode_audio] on a
    running engine with both frames present succeeds; the output carries
    the input's timestamp and holds exactly [size] bytes of data, where
    [size] is the tier's fraction (3/4 from quality 80, 3/5 from 50, 2/5
    below), rounded down, of the input's byte size for [encode_audio]
    and of the YUV420 size of the input's geometry, [width * height * 3
    / 2], for [encode_video]. *)
Theorem C8_encode_contract (inp out : AVFrame) (e : CompressionEngine.t) :
  is_running_ e = true ->
  0 <= size inp < 2 ^ 32 ->
  let num := fst (tier_fraction (cfg_quality (config_ e))) in
  let den := snd (tier_fraction (cfg_quality (config_ e))) in
  (exists out' e',
     encode_audio (Some inp) (Some out) e = (true, Some out', e') /\
     timestamp out' = timestamp inp /\
     size out' = size inp * num / den /\
     Z.of_nat (length (data out')) = size out') /\
  (exists out' e',
     encode_video (Some inp) (Some out) e = (true, Some out', e') /\
     timestamp out' = timestamp inp /\
     size out' = yuv420_size inp * num / den /\
     Z.of_nat (length (data out')) = size out').
Proof.
  intros Hrun Hsize. cbv zeta.
  assert (Hnonneg : forall n, 0 <= n < 2 ^ 32 -> 0 <= compress_data e n).
  { intros n Hn. rewrite (compress_data_exact e n Hn).
    unfold tier_fraction.
    destruct (80 <=? _); [|destruct (50 <=? _)]; simpl fst; simpl snd;
      apply Z.div_pos; lia. }
  split.
  - unfold encode_audio. rewrite Hrun. change (negb true) with false. cbv beta iota.
    eexists _, _. split; [reflexivity|]. cbn [timestamp size data].
    split; [reflexivity|].
    split; [apply compress_data_exact; exact Hsize|].
    rewrite resize_length, Z2Nat.id; [reflexivity|]. apply Hnonneg, Hsize.
  - unfold encode_video. rewrite Hrun. change (negb true) with false. cbv beta iota.
    eexists _, _. split; [reflexivity|]. cbn [timestamp size data].
    split; [reflexivity|].
    split; [apply (compress_data_exact e (yuv420_size inp)), yuv420_size_range|].
    rewrite resize_length, Z2Nat.id; [reflexivity|].
    apply (Hnonneg (yuv420_size inp)), yuv420_size_range.
Qed.

Lemma C8_encode_contract_witness :
  is_running_ running_engine = true /\
  0 <= size captured_audio < 2 ^ 32 /\
  (exists out' e',
     encode_audio (Some captured_audio) (Some pool_frame) running_engine
     = (true, Some out', e') /\
     timestamp out' = timestamp captured_audio /\
     size out' = 4096 * 3 / 4 /\
     Z.of_nat (length (data out')) = size out').
Proof.
  assert (Hsize : 0 <= size captured_audio < 2 ^ 32) by (vm_compute; split; congruence).
  split; [reflexivity|]. split; [exact Hsize|].
  exact (proj1 (C8_encode_contract captured_audio pool_frame running_engine
                  eq_refl Hsize)).
Defined.

End Encoder.

(** ** SafeQueue: order of delivery *)

Section SafeQueueOrder.
Context {T : Type}.
Implicit Types (q : SafeQueue.t T) (v : T).
Import SafeQueue.

Lemma push_all_no_waiter (vs : list T) q :
  waiting q = [] -> push_all vs q = with_queue (queue_ q ++ vs) q.
Proof.
  revert q. induction vs as [|v vs IH]; intros q Hw; unfold push_all; simpl.
  - rewrite app_nil_r. destruct q; reflexivity.
  - rewrite (push_no_waiter q v Hw). cbn [fst].
    fold (push_all vs (with_queue (queue_ q ++ [v]) q)).
    rewrite IH by exact Hw. cbn [with_queue queue_ shutdown_ waiting].
    rewrite <- app_assoc. reflexivity.
Qed.

Lemma try_pops_spec (l : list T) (k : nat) q :
  queue_ q = l ->
  try_pops (length l + k) q
  = (map Some l ++ replicate k None, with_queue [] q).
Proof.
  revert q. induction l as [|v l IH]; intros q Hq.
  - simpl. assert (Hq' : with_queue [] q = q)
      by (destruct q; simpl in *; subst; reflexivity).
    rewrite Hq'. clear Hq'.
    induction k as [|k IHk]; [reflexivity|].
    simpl. unfold try_pop. rewrite Hq. rewrite IHk. reflexivity.
  - simpl. unfold try_pop at 1. rewrite Hq.
    rewrite (IH (with_queue l q)) by reflexivity. reflexivity.
Qed.

(** X5.  The queue is first-in first-out and loses nothing: with no
    consumer parked, the items pushed come back from [try_pop] in the
    order of the pushes, behind the items already queued, each one
    once; further calls return false.  Neither [push] nor [try_pop]
    looks at the shutdown flag. *)
Theorem try_pop_returns_pushes_in_order (vs : list T) (k : nat) q :
  waiting q = [] ->
  try_pops (length (queue_ q) + length vs + k) (push_all vs q)
  = (map Some (queue_ q ++ vs) ++ replicate k None, with_queue [] q).
Proof.
  intros Hw. rewrite (push_all_no_waiter vs q Hw).
  rewrite <- length_app.
  rewrite (try_pops_spec (queue_ q ++ vs) k) by reflexivity.
  reflexivity.
Qed.

End SafeQueueOrder.

Lemma try_pop_returns_pushes_in_order_witness :
  SafeQueue.waiting (fst (SafeQueue.shutdown (fst (SafeQueue.push 7 (@SafeQueue.create Z))))) = [] /\
  fst (SafeQueue.try_pops 4 (SafeQueue.push_all [8; 9] (fst (SafeQueue.shutdown (fst (SafeQueue.push 7 (@SafeQueue.create Z)))))))
  = [Some 7; Some 8; Some 9; None].
Proof.
  split; [reflexivity|].
  change 4%nat
    with (length (SafeQueue.queue_
                    (fst (SafeQueue.shutdown (fst (SafeQueue.push 7%Z (@SafeQueue.create Z))))))
          + length [8%Z; 9%Z] + 1)%nat.
  rewrite (try_pop_returns_pushes_in_order [8; 9] 1
             (fst (SafeQueue.shutdown (fst (SafeQueue.push 7 (@SafeQueue.create Z))))) eq_refl).
  reflexivity.
Defined.

(** ** The header checksum *)

Section Checksum.
Import Protocol.

Lemma fold_left_cons {A B : Type} (f : A -> B -> A) (x : B) (l : list B) (a : A) :
  fold_left f (x :: l) a = fold_left f l (f a x).
Proof. reflexivity. Qed.

Lemma crc_byte_eq (c b : Z) : crc_byte c b = Nat.iter 8 crc_bit (Z.lxor c b).
Proof. reflexivity. Qed.

Lemma bytes_forallb (l : list Z) :
  forallb (fun b => (0 <=? b) && (b <? 256)) l = true -> bytes l.
Proof.
  intros H. apply Forall_forall. intros b Hin.
  rewrite forallb_forall in H. specialize (H b).
  apply andb_prop in H as [H1 H2].
  - apply Z.leb_le in H1. apply Z.ltb_lt in H2. split; assumption.
  - apply list_elem_of_In. exact Hin.
Qed.

Lemma lxor_range (n a b : Z) :
  0 <= n -> 0 <= a < 2 ^ n -> 0 <= b < 2 ^ n -> 0 <= Z.lxor a b < 2 ^ n.
Proof.
  intros Hn Ha Hb.
  assert (H0 : 0 <= Z.lxor a b) by (apply Z.lxor_nonneg; lia).
  split; [exact H0|].
  destruct (Z.eq_dec (Z.lxor a b) 0) as [Hz|Hnz].
  { rewrite Hz. apply Z.pow_pos_nonneg; lia. }
  assert (Hn0 : 0 < n).
  { destruct (Z.eq_dec n 0) as [->|]; [|lia].
    assert (a = 0) by lia. assert (b = 0) by lia. subst. contradiction. }
  apply Z.log2_lt_pow2; [lia|].
  pose proof (Z.log2_lxor a b ltac:(lia) ltac:(lia)) as Hl.
  assert (Z.log2 a < n).
  { destruct (Z.eq_dec a 0) as [->|]; [simpl; lia|]. apply Z.log2_lt_pow2; lia. }
  assert (Z.log2 b < n).
  { destruct (Z.eq_dec b 0) as [->|]; [simpl; lia|]. apply Z.log2_lt_pow2; lia. }
  lia.
Qed.

Lemma crc_bit_range (c : Z) : 0 <= c < 2 ^ 16 -> 0 <= crc_bit c < 2 ^ 16.
Proof.
  intros Hc. rewrite crc_bit_spec.
  assert (0 <= c / 2 < 2 ^ 15).
  { split; [apply Z.div_pos; lia|]. apply Z.div_lt_upper_bound; lia. }
  destruct (Z.odd c).
  - apply lxor_range; lia.
  - lia.
Qed.

Lemma crc_unbit_bit (c : Z) : 0 <= c < 2 ^ 16 -> crc_unbit (crc_bit c) = c.
Proof.
  intros Hc. rewrite crc_bit_spec. unfold crc_unbit.
  assert (Hh : 0 <= c / 2 < 2 ^ 15).
  { split; [apply Z.div_pos; lia|]. apply Z.div_lt_upper_bound; lia. }
  assert (Hb : Z.testbit (c / 2) 15 = false).
  { apply Z.testbit_false; [lia|]. rewrite Z.div_small by lia. reflexivity. }
  pose proof (Zdiv2_odd_eqn c) as Hd. rewrite Z.div2_div in Hd.
  destruct (Z.odd c).
  - rewrite Z.lxor_spec, Hb. cbn [xorb]. 
    change (Z.testbit 40961 15) with true. cbv iota.
    rewrite Z.lxor_assoc, Z.lxor_nilpotent, Z.lxor_0_r. lia.
  - rewrite Hb. lia.
Qed.

Lemma crc_bit_inj (c1 c2 : Z) :
  0 <= c1 < 2 ^ 16 -> 0 <= c2 < 2 ^ 16 -> crc_bit c1 = crc_bit c2 -> c1 = c2.
Proof.
  intros H1 H2 He.
  rewrite <- (crc_unbit_bit c1 H1), <- (crc_unbit_bit c2 H2), He. reflexivity.
Qed.

Lemma crc_bits_range (n : nat) (c : Z) :
  0 <= c < 2 ^ 16 -> 0 <= Nat.iter n crc_bit c < 2 ^ 16.
Proof.
  intros Hc. induction n as [|n IH]; [exact Hc|].
  cbn [Nat.iter nat_rect]. apply crc_bit_range, IH.
Qed.

Lemma crc_bits_inj (n : nat) (c1 c2 : Z) :
  0 <= c1 < 2 ^ 16 -> 0 <= c2 < 2 ^ 16 ->
  Nat.iter n crc_bit c1 = Nat.iter n crc_bit c2 -> c1 = c2.
Proof.
  intros H1 H2. induction n as [|n IH]; [auto|].
  cbn [Nat.iter nat_rect]. intros He.
  apply IH, crc_bit_inj; auto using crc_bits_range.
Qed.

Lemma crc_byte_range (c b : Z) :
  0 <= c < 2 ^ 16 -> is_byte b -> 0 <= crc_byte c b < 2 ^ 16.
Proof.
  intros Hc Hb. rewrite crc_byte_eq. apply crc_bits_range.
  apply lxor_range; unfold is_byte in Hb; lia.
Qed.

Lemma lxor_cancel_r (a b c : Z) : Z.lxor a c = Z.lxor b c -> a = b.
Proof.
  intros H. apply (f_equal (fun x => Z.lxor x c)) in H.
  rewrite !Z.lxor_assoc, !Z.lxor_nilpotent, !Z.lxor_0_r in H. exact H.
Qed.

Lemma lxor_cancel_l (a b c : Z) : Z.lxor c a = Z.lxor c b -> a = b.
Proof.
  rewrite !(Z.lxor_comm c). apply lxor_cancel_r.
Qed.

Lemma crc_byte_inj (c1 c2 b1 b2 : Z) :
  0 <= c1 < 2 ^ 16 -> 0 <= c2 < 2 ^ 16 -> is_byte b1 -> is_byte b2 ->
  crc_byte c1 b1 = crc_byte c2 b2 -> Z.lxor c1 b1 = Z.lxor c2 b2.
Proof.
  unfold is_byte. rewrite !crc_byte_eq. intros H1 H2 Hb1 Hb2 He.
  apply (crc_bits_inj 8); [apply lxor_range; lia|apply lxor_range; lia|exact He].
Qed.

Lemma fold_crc_range (data : list Z) (c : Z) :
  0 <= c < 2 ^ 16 -> bytes data -> 0 <= fold_left crc_byte data c < 2 ^ 16.
Proof.
  revert c. induction data as [|b data IH]; intros c Hc Hd; [exact Hc|].
  inversion Hd; subst. rewrite fold_left_cons. apply IH; [|assumption].
  apply crc_byte_range; assumption.
Qed.

Lemma crc16_range (data : list Z) : bytes data -> 0 <= crc16 data < 2 ^ 16.
Proof.
  intros Hd. unfold crc16. apply fold_crc_range; [lia|exact Hd].
Qed.

Lemma fold_crc_inj (data : list Z) (c1 c2 : Z) :
  0 <= c1 < 2 ^ 16 -> 0 <= c2 < 2 ^ 16 -> bytes data ->
  fold_left crc_byte data c1 = fold_left crc_byte data c2 -> c1 = c2.
Proof.
  revert c1 c2. induction data as [|b data IH]; intros c1 c2 H1 H2 Hd He;
    [exact He|].
  inversion Hd; subst. rewrite !fold_left_cons in He.
  apply IH in He; [|apply crc_byte_range; assumption..|assumption].
  apply crc_byte_inj in He; [|assumption..].
  eapply lxor_cancel_r, He.
Qed.

(** The checksums of two byte strings that differ in one byte differ. *)
Lemma crc16_one_byte (pre post : list Z) (x y : Z) :
  bytes pre -> bytes post -> is_byte x -> is_byte y -> x <> y ->
  crc16 (pre ++ x :: post) <> crc16 (pre ++ y :: post).
Proof.
  intros Hpre Hpost Hx Hy Hne He. unfold crc16 in He.
  rewrite !fold_left_app, !fold_left_cons in He.
  pose proof (fold_crc_range pre 0xFFFF ltac:(lia) Hpre) as Hs.
  apply fold_crc_inj in He; [|apply crc_byte_range; assumption..|assumption].
  apply crc_byte_inj in He; [|assumption..].
  apply lxor_cancel_l in He. contradiction.
Qed.

(** The checksum step is linear over exclusive or. *)
Lemma crc_bit_lxor (a b : Z) :
  crc_bit (Z.lxor a b) = Z.lxor (crc_bit a) (crc_bit b).
Proof.
  unfold crc_bit. rewrite Z.lxor_spec, Z.shiftr_lxor.
  destruct (Z.testbit a 0), (Z.testbit b 0); cbn [xorb];
    apply Z.bits_inj'; intros n Hn; rewrite ?Z.lxor_spec;
    repeat match goal with
           | |- context [Z.testbit ?x n] => destruct (Z.testbit x n)
           end; reflexivity.
Qed.

Lemma crc_bits_lxor (n : nat) (a b : Z) :
  Nat.iter n crc_bit (Z.lxor a b)
  = Z.lxor (Nat.iter n crc_bit a) (Nat.iter n crc_bit b).
Proof.
  induction n as [|n IH]; [reflexivity|].
  change (crc_bit (Nat.iter n crc_bit (Z.lxor a b))
          = Z.lxor (crc_bit (Nat.iter n crc_bit a))
                   (crc_bit (Nat.iter n crc_bit b))).
  rewrite IH. apply crc_bit_lxor.
Qed.

(** Eight rounds push every non-zero byte into the upper half of the
    register. *)
Lemma crc_bits_of_byte (e : Z) :
  is_byte e -> Nat.iter 8 crc_bit e < 256 -> e = 0.
Proof.
  intros He Hlt.
  assert (Htable : forallb (fun k => (k =? 0)%nat
                                     || (256 <=? Nat.iter 8 crc_bit (Z.of_nat k)))
                     (seq 0 256) = true) by (vm_compute; reflexivity).
  rewrite forallb_forall in Htable.
  unfold is_byte in He.
  specialize (Htable (Z.to_nat e)).
  rewrite Z2Nat.id in Htable by lia.
  destruct (orb_prop _ _ (Htable ltac:(apply in_seq; lia))) as [H|H].
  - apply Nat.eqb_eq in H. lia.
  - apply Z.leb_le in H. lia.
Qed.

(** The checksums of two byte strings that differ only in two adjacent
    bytes differ. *)
Lemma crc16_two_bytes (pre post : list Z) (x1 x2 y1 y2 : Z) :
  bytes pre -> bytes post ->
  is_byte x1 -> is_byte x2 -> is_byte y1 -> is_byte y2 ->
  crc16 (pre ++ x1 :: x2 :: post) = crc16 (pre ++ y1 :: y2 :: post) ->
  x1 = y1 /\ x2 = y2.
Proof.
  intros Hpre Hpost Hx1 Hx2 Hy1 Hy2 He. unfold crc16 in He.
  rewrite !fold_left_app, !fold_left_cons in He.
  pose proof (fold_crc_range pre 0xFFFF ltac:(lia) Hpre) as Hs.
  set (s := fold_left crc_byte pre 65535) in *.
  apply fold_crc_inj in He;
    [|repeat apply crc_byte_range; assumption..|assumption].
  apply crc_byte_inj in He; [|try apply crc_byte_range; assumption..].
  rewrite !crc_byte_eq, !crc_bits_lxor in He.
  assert (He' : Nat.iter 8 crc_bit (Z.lxor x1 y1) = Z.lxor x2 y2).
  { rewrite crc_bits_lxor.
    apply (f_equal (fun v => Z.lxor (Z.lxor (Nat.iter 8 crc_bit s)
                                      (Nat.iter 8 crc_bit y1))
                               (Z.lxor v x2))) in He.
    revert He. clear.
    generalize (Nat.iter 8 crc_bit s) (Nat.iter 8 crc_bit x1)
               (Nat.iter 8 crc_bit y1).
    intros S X Y He.
    transitivity (Z.lxor (Z.lxor S Y) (Z.lxor (Z.lxor (Z.lxor S X) x2) x2));
      [|rewrite He]; apply Z.bits_inj'; intros n Hn; rewrite ?Z.lxor_spec;
      repeat match goal with
             | |- context [Z.testbit ?x n] => destruct (Z.testbit x n)
             end; reflexivity. }
  assert (Hb1 : is_byte (Z.lxor x1 y1))
    by (unfold is_byte in *; apply (lxor_range 8); lia).
  assert (Hb2 : is_byte (Z.lxor x2 y2))
    by (unfold is_byte in *; apply (lxor_range 8); lia).
  assert (Hz : Z.lxor x1 y1 = 0).
  { apply crc_bits_of_byte; [exact Hb1|]. rewrite He'. unfold is_byte in Hb2. lia. }
  rewrite Hz in He'.
  assert (H0 : Nat.iter 8 crc_bit 0 = 0) by (vm_compute; reflexivity).
  rewrite H0 in He'.
  split; apply Z.lxor_eq; congruence.
Qed.

Lemma le_bytes_le_value (l : list Z) :
  bytes l -> le_bytes (length l) (le_value l) = l.
Proof.
  induction 1 as [|b l Hb Hl IH]; [reflexivity|].
  cbn [length le_bytes le_value]. unfold is_byte in Hb.
  rewrite (Z.mul_comm 256), Z.mod_add, Z.div_add by lia.
  rewrite Z.mod_small, Z.div_small by lia.
  rewrite Z.add_0_l, IH. reflexivity.
Qed.

Lemma le_bytes_bytes (n : nat) (v : Z) : bytes (le_bytes n v).
Proof.
  revert v. induction n as [|n IH]; intros v; constructor.
  - unfold is_byte. apply Z.mod_pos_bound. lia.
  - apply IH.
Qed.

Lemma object_bytes_bytes (h : MessageHeader) : bytes (object_bytes h).
Proof.
  unfold object_bytes, bytes. rewrite !Forall_app.
  repeat split; apply le_bytes_bytes.
Qed.

Lemma slice_bytes (off n : nat) (l : list Z) : bytes l -> bytes (slice off n l).
Proof. intros H. apply Forall_take, Forall_drop, H. Qed.

Lemma le_bytes_slice (off n : nat) (l : list Z) :
  bytes l -> (off + n <= length l)%nat ->
  le_bytes n (le_value (slice off n l)) = slice off n l.
Proof.
  intros Hb Hl.
  assert (Hn : length (slice off n l) = n)
    by (unfold slice; rewrite length_take, length_drop; lia).
  rewrite <- Hn at 1. apply le_bytes_le_value, slice_bytes, Hb.
Qed.

(** Thirty-two bytes read as a header and written back are the same
    thirty-two bytes. *)
Lemma object_bytes_of_object_bytes (l : list Z) :
  bytes l -> length l = 32%nat -> object_bytes (of_object_bytes l) = l.
Proof.
  intros Hb Hl. unfold object_bytes, of_object_bytes.
  cbn [magic type pad_6 payload_size pad_12 timestamp header_crc pad_26].
  rewrite !le_bytes_slice by (assumption || lia).
  do 32 (destruct l as [|? l]; [simpl in Hl; lia|]).
  destruct l; [reflexivity|simpl in Hl; lia].
Qed.

Lemma is_valid_true_iff (h : MessageHeader) :
  is_valid h = true <->
  magic h = MAGIC_NUMBER /\ payload_size h <= MAX_PAYLOAD_SIZE /\
  header_crc h = calculate_crc h.
Proof.
  unfold is_valid.
  destruct (Z.eqb_spec (magic h) MAGIC_NUMBER) as [Hm|Hm]; cbn [negb];
    [|split; [discriminate|tauto]].
  destruct (Z.gtb_spec (payload_size h) MAX_PAYLOAD_SIZE) as [Hp|Hp];
    [split; [discriminate|lia]|].
  destruct (Z.eqb_spec (header_crc h) (calculate_crc h)) as [Hc|Hc]; cbn [negb];
    [tauto|split; [discriminate|tauto]].
Qed.

(** What [deserialize] leaves in the members that [is_valid] reads. *)
Lemma deserialize_checked_fields (d : list Z) (r : MessageHeader) :
  bytes d -> (20 <= length d)%nat ->
  magic (deserialize d r) = le_value (slice 0 4 d) /\
  payload_size (deserialize d r) = le_value (slice 8 4 d) /\
  calculate_crc (deserialize d r) = crc16 (take 18 d) /\
  header_crc (deserialize d r) = header_crc r mod 2 ^ 16.
Proof.
  intros Hb Hl.
  assert (Hpre : forall off n, (off + n <= 20)%nat ->
            slice off n (take HEADER_SIZE d ++ drop HEADER_SIZE (object_bytes r))
            = slice off n d).
  { intros off n Hon. unfold slice, HEADER_SIZE.
    rewrite drop_app_le by (rewrite length_take; lia).
    rewrite take_app_le by (rewrite length_drop, length_take; lia).
    rewrite skipn_firstn_comm, take_take. f_equal. lia. }
  split; [unfold deserialize, of_object_bytes; cbn [magic];
          rewrite (Hpre 0%nat 4%nat) by lia; reflexivity|].
  split; [unfold deserialize, of_object_bytes; cbn [payload_size];
          rewrite (Hpre 8%nat 4%nat) by lia; reflexivity|].
  split; [|apply deserialize_keeps_crc; exact Hl].
  unfold calculate_crc, deserialize.
  rewrite object_bytes_of_object_bytes.
  - unfold HEADER_SIZE. rewrite take_app_le by (rewrite length_take; lia).
    rewrite take_take. reflexivity.
  - apply Forall_app. split; [apply Forall_take, Hb|apply Forall_drop, object_bytes_bytes].
  - rewrite length_app, length_take, length_drop, object_bytes_length.
    unfold HEADER_SIZE. lia.
Qed.

(** X7.  The checksum covers header bytes 0 to 17.  A received header
    that passes the checks stops passing them when one byte, or two
    adjacent bytes, among those eighteen are altered in any way; what
    follows them (bytes 18 and 19, the upper half of the transmitted
    timestamp) can be replaced freely without the checks noticing. *)
Theorem header_corruption_is_detected (pre post : list Z) (x1 x2 y1 y2 : Z)
    (r : MessageHeader) :
  bytes (pre ++ x1 :: x2 :: post) -> is_byte y1 -> is_byte y2 ->
  x1 <> y1 \/ x2 <> y2 ->
  (length pre <= 16)%nat -> (20 <= length (pre ++ x1 :: x2 :: post))%nat ->
  is_valid (deserialize (pre ++ x1 :: x2 :: post) r) = true ->
  is_valid (deserialize (pre ++ y1 :: y2 :: post) r) = false /\
  (forall tail, bytes tail -> (2 <= length tail)%nat ->
     is_valid (deserialize (take 18 (pre ++ x1 :: x2 :: post) ++ tail) r) = true).
Proof.
  intros Hb Hy1 Hy2 Hne Hi Hl Hv.
  assert (Hparts : bytes pre /\ is_byte x1 /\ is_byte x2 /\ bytes post).
  { apply Forall_app in Hb as [Hpre Hpost]. inversion Hpost as [|? ? ? Hpost']; subst.
    inversion Hpost'; subst. auto. }
  destruct Hparts as (Hpre & Hx1 & Hx2 & Hpost).
  assert (Hb' : bytes (pre ++ y1 :: y2 :: post)).
  { apply Forall_app. split; [assumption|].
    constructor; [assumption|constructor; assumption]. }
  assert (Hl' : (20 <= length (pre ++ y1 :: y2 :: post))%nat)
    by (rewrite length_app in *; cbn [length] in *; lia).
  destruct (deserialize_checked_fields _ r Hb Hl) as (Hm & Hp & Hc & Hh).
  destruct (deserialize_checked_fields _ r Hb' Hl') as (Hm' & Hp' & Hc' & Hh').
  apply is_valid_true_iff in Hv as (Vm & Vp & Vc).
  split.
  - destruct (is_valid (deserialize (pre ++ y1 :: y2 :: post) r)) eqn:Hv';
      [|reflexivity].
    exfalso. apply is_valid_true_iff in Hv' as (_ & _ & Vc').
    assert (He : crc16 (take 18 (pre ++ x1 :: x2 :: post))
                 = crc16 (take 18 (pre ++ y1 :: y2 :: post)))
      by congruence.
    rewrite !take_app_ge in He by lia.
    destruct (18 - length pre)%nat as [|[|k]] eqn:Hk; [lia..|].
    cbn [take] in He.
    apply crc16_two_bytes in He; try assumption; [|apply Forall_take; assumption].
    destruct He, Hne; contradiction.
  - intros tail Ht Htl.
    set (d := pre ++ x1 :: x2 :: post) in *.
    assert (Hbt : bytes (take 18 d ++ tail))
      by (apply Forall_app; split; [apply Forall_take; exact Hb|exact Ht]).
    assert (Hlt : (20 <= length (take 18 d ++ tail))%nat)
      by (rewrite length_app, length_take; lia).
    destruct (deserialize_checked_fields _ r Hbt Hlt) as (Hm2 & Hp2 & Hc2 & Hh2).
    assert (Hs : forall off n, (off + n <= 18)%nat ->
              slice off n (take 18 d ++ tail) = slice off n d).
    { intros off n Hon. unfold slice.
      rewrite drop_app_le by (rewrite length_take; lia).
      rewrite take_app_le by (rewrite length_drop, length_take; lia).
      rewrite skipn_firstn_comm, take_take. f_equal. lia. }
    apply is_valid_true_iff. split; [|split].
    + rewrite Hm2, (Hs 0%nat 4%nat) by lia. rewrite <- Hm. exact Vm.
    + rewrite Hp2, (Hs 8%nat 4%nat) by lia. rewrite <- Hp. exact Vp.
    + rewrite Hc2, Hh2. rewrite <- Hh, Vc, Hc.
      rewrite take_app_le by (rewrite length_take; lia).
      rewrite take_take. reflexivity.
Qed.
End Checksum.

Lemma header_corruption_is_detected_witness :
  let r := Protocol.header_ received in
  let pre := [0x34; 0x12; 0xCD; 0xAB] in
  let post := replicate 14 0 in
  Protocol.serialize r = pre ++ 0 :: 0 :: post /\
  Protocol.is_valid (Protocol.deserialize (pre ++ 0 :: 0 :: post) r) = true /\
  Protocol.is_valid (Protocol.deserialize (pre ++ 200 :: 0 :: post) r) = false.
Proof.
  intros r pre post.
  assert (Hv : Protocol.is_valid
                 (Protocol.deserialize (pre ++ 0 :: 0 :: post) r) = true)
    by (vm_compute; reflexivity).
  assert (Hb : bytes (pre ++ 0 :: 0 :: post))
    by (apply bytes_forallb; vm_compute; reflexivity).
  assert (Hy1 : is_byte 200) by (unfold is_byte; lia).
  assert (Hy2 : is_byte 0) by (unfold is_byte; lia).
  assert (Hne : 0 <> 200 \/ 0 <> 0) by (left; discriminate).
  assert (Hi : (length pre <= 16)%nat) by (vm_compute; lia).
  assert (Hl : (20 <= length (pre ++ 0%Z :: 0%Z :: post))%nat)
    by (vm_compute; lia).
  split; [vm_compute; reflexivity|]. split; [exact Hv|].
  exact (proj1 (header_corruption_is_detected pre post 0 0 200 0 r
                  Hb Hy1 Hy2 Hne Hi Hl Hv)).
Defined.

(** ** What a header keeps across the wire *)

Section HeaderOnTheWire.
Import Protocol.

Lemma le_value_app (a b : list Z) :
  le_value (a ++ b) = le_value a + 256 ^ Z.of_nat (length a) * le_value b.
Proof.
  induction a as [|x a IH].
  - cbn [app length le_value]. change (256 ^ Z.of_nat 0) with 1. lia.
  - cbn [app length le_value]. rewrite IH, Nat2Z.inj_succ, Z.pow_succ_r by lia.
    ring.
Qed.

(** X8.  Twenty header bytes carry magic, type, payload size, the two
    padding areas in front of the timestamp and the low half of the
    timestamp.  Deserialising them over a header object [r] yields those
    members from the sender and keeps the high half of the timestamp,
    the checksum and the trailing padding that [r] held. *)
Theorem header_members_across_the_wire (h r : MessageHeader) (rest : list Z) :
  deserialize (serialize h ++ rest) r
  = {| magic := magic h mod 2 ^ 32;
       type := type h mod 2 ^ 16;
       payload_size := payload_size h mod 2 ^ 32;
       timestamp := timestamp h mod 2 ^ 32
                    + 2 ^ 32 * ((timestamp r / 2 ^ 32) mod 2 ^ 32);
       header_crc := header_crc r mod 2 ^ 16;
       pad_6 := pad_6 h mod 2 ^ 16;
       pad_12 := pad_12 h mod 2 ^ 32;
       pad_26 := pad_26 r mod 2 ^ 48 |}.
Proof.
  unfold deserialize.
  rewrite take_app_le by (rewrite serialize_length; unfold HEADER_SIZE; lia).
  rewrite firstn_all2 by (rewrite serialize_length; unfold HEADER_SIZE; lia).
  unfold of_object_bytes. f_equal.
  - change (le_value (le_bytes 4 (magic h)) = magic h mod 2 ^ 32).
    apply (le_value_le_bytes 4).
  - change (le_value (le_bytes 2 (type h)) = type h mod 2 ^ 16).
    apply (le_value_le_bytes 2).
  - change (le_value (le_bytes 4 (payload_size h)) = payload_size h mod 2 ^ 32).
    apply (le_value_le_bytes 4).
  - change (le_value (le_bytes 4 (timestamp h)
                      ++ le_bytes 4 (timestamp r / 256 / 256 / 256 / 256))
            = timestamp h mod 2 ^ 32
              + 2 ^ 32 * ((timestamp r / 2 ^ 32) mod 2 ^ 32)).
    rewrite le_value_app, le_bytes_length, !(le_value_le_bytes 4).
    change (256 ^ Z.of_nat 4) with (2 ^ 32).
    rewrite !Z.div_div by lia. reflexivity.
  - change (le_value (le_bytes 2 (header_crc r)) = header_crc r mod 2 ^ 16).
    apply (le_value_le_bytes 2).
  - change (le_value (le_bytes 2 (pad_6 h)) = pad_6 h mod 2 ^ 16).
    apply (le_value_le_bytes 2).
  - change (le_value (le_bytes 4 (pad_12 h)) = pad_12 h mod 2 ^ 32).
    apply (le_value_le_bytes 4).
  - change (le_value (le_bytes 6 (pad_26 r)) = pad_26 r mod 2 ^ 48).
    apply (le_value_le_bytes 6).
Qed.
End HeaderOnTheWire.

(** ** Setters and the header checksum *)

Section Setters.
Import Protocol.

Lemma calculate_crc_with_crc (c : Z) (h : MessageHeader) :
  calculate_crc (with_crc c h) = calculate_crc h.
Proof.
  rewrite !calculate_crc_serialized. apply (f_equal crc16). reflexivity.
Qed.

Lemma is_valid_refreshed (h : MessageHeader) :
  is_valid (with_crc (calculate_crc h) h)
  = (magic h =? MAGIC_NUMBER) && (payload_size h <=? MAX_PAYLOAD_SIZE).
Proof.
  unfold is_valid. rewrite calculate_crc_with_crc.
  cbn [with_crc magic payload_size header_crc].
  rewrite Z.eqb_refl. cbn [negb].
  destruct (magic h =? MAGIC_NUMBER); cbn [negb andb]; [|reflexivity].
  rewrite Z.gtb_ltb, Z.leb_antisym.
  destruct (MAX_PAYLOAD_SIZE <? payload_size h); reflexivity.
Qed.

(** The eighteen bytes under the checksum, with the two low bytes of
    the payload size set apart. *)
Lemma checksummed_bytes (h : MessageHeader) :
  take 18 (serialize h)
  = (le_bytes 4 (magic h) ++ le_bytes 2 (type h) ++ le_bytes 2 (pad_6 h))
      ++ (payload_size h mod 256) :: (payload_size h / 256 mod 256)
      :: (le_bytes 2 (payload_size h / 256 / 256) ++ le_bytes 4 (pad_12 h)
          ++ take 2 (le_bytes 8 (timestamp h))).
Proof. reflexivity. Qed.

Lemma stale_checksum (n : Z) (h : MessageHeader) :
  is_valid h = true ->
  0 <= payload_size h < 2 ^ 16 -> 0 <= n < 2 ^ 16 -> n <> payload_size h ->
  is_valid (with_payload_size n h) = false.
Proof.
  intros Hv Hs Hn Hne.
  destruct (is_valid (with_payload_size n h)) eqn:Hv'; [exfalso|reflexivity].
  apply is_valid_true_iff in Hv as (_ & _ & Vc).
  apply is_valid_true_iff in Hv' as (_ & _ & Vc').
  assert (Hcrc : header_crc (with_payload_size n h) = header_crc h) by reflexivity.
  rewrite Hcrc, Vc in Vc'. clear Hcrc.
  rewrite !calculate_crc_serialized, !checksummed_bytes in Vc'.
  assert (Hf : magic (with_payload_size n h) = magic h
               /\ type (with_payload_size n h) = type h
               /\ pad_6 (with_payload_size n h) = pad_6 h
               /\ pad_12 (with_payload_size n h) = pad_12 h
               /\ timestamp (with_payload_size n h) = timestamp h
               /\ payload_size (with_payload_size n h) = n)
    by (repeat split; reflexivity).
  destruct Hf as (E1 & E2 & E3 & E4 & E5 & E6).
  rewrite E1, E2, E3, E4, E5, E6 in Vc'. clear E1 E2 E3 E4 E5 E6.
  rewrite (Z.div_div n), (Z.div_div (payload_size h)) in Vc' by lia.
  rewrite (Z.div_small n (256 * 256)), (Z.div_small (payload_size h) (256 * 256))
    in Vc' by lia.
  apply crc16_two_bytes in Vc' as [H1 H2].
  - pose proof (Z.div_mod n 256 ltac:(lia)).
    pose proof (Z.div_mod (payload_size h) 256 ltac:(lia)).
    rewrite (Z.mod_small (n / 256)) in H2
      by (split; [apply Z.div_pos; lia|apply Z.div_lt_upper_bound; lia]).
    rewrite (Z.mod_small (payload_size h / 256)) in H2
      by (split; [apply Z.div_pos; lia|apply Z.div_lt_upper_bound; lia]).
    lia.
  - unfold bytes. rewrite !Forall_app. repeat split; apply le_bytes_bytes.
  - unfold bytes. rewrite !Forall_app.
    repeat split; try apply le_bytes_bytes. apply Forall_take, le_bytes_bytes.
  - apply Z.mod_pos_bound; lia.
  - apply Z.mod_pos_bound; lia.
  - apply Z.mod_pos_bound; lia.
  - apply Z.mod_pos_bound; lia.
Qed.

(** X9.  [set_payload], [append_payload] and [clear_payload] store the new
    payload size in the header and leave the header checksum as it was:
    a valid message whose payload size they change is no longer valid.
    [set_type] and [set_timestamp] recompute the checksum and make it
    valid again.  (Sizes below 64 KiB.) *)
Theorem payload_setters_leave_checksum_stale (m : Message) :
  message_is_valid m = true ->
  0 <= payload_size (header_ m) < 2 ^ 16 ->
  (forall data,
     Z.of_nat (length data) < 2 ^ 16 ->
     Z.of_nat (length data) <> payload_size (header_ m) ->
     let m' := snd (set_payload true data m) in
     payload_ m' = data /\
     payload_size (header_ m') = Z.of_nat (length data) /\
     message_is_valid m' = false /\
     (forall ty, message_is_valid (set_type ty m') = true) /\
     (forall ts, message_is_valid (set_timestamp ts m') = true)) /\
  (forall data,
     data <> [] ->
     Z.of_nat (length (payload_ m ++ data)) < 2 ^ 16 ->
     Z.of_nat (length (payload_ m ++ data)) <> payload_size (header_ m) ->
     let m' := snd (append_payload true data m) in
     payload_ m' = payload_ m ++ data /\
     fst (append_payload true data m) = Z.of_nat (length (payload_ m ++ data)) /\
     message_is_valid m' = false) /\
  (payload_size (header_ m) <> 0 ->
   message_is_valid (clear_payload m) = false).
Proof.
  intros Hv Hs. unfold message_is_valid in Hv.
  apply andb_prop in Hv as [Hflag Hh].
  pose proof Hh as Hh'. apply is_valid_true_iff in Hh' as (Hm & _ & _).
  split; [|split].
  - intros data Hl Hne m'.
    assert (Hm' : m' = mkMessage (with_payload_size (Z.of_nat (length data)) (header_ m))
                                 data (valid_ m)).
    { unfold m', set_payload. destruct data; reflexivity. }
    rewrite Hm'. cbn [payload_ header_ with_payload_size payload_size].
    split; [reflexivity|]. split; [reflexivity|]. split.
    { unfold message_is_valid. cbn [header_ valid_].
      rewrite (stale_checksum _ _ Hh Hs) by lia. apply andb_false_r. }
    split; intros x; unfold message_is_valid, set_type, set_timestamp;
      cbn [header_ valid_]; rewrite is_valid_refreshed;
      cbn [with_type with_timestamp with_payload_size magic payload_size];
      rewrite Hflag, Hm, Z.eqb_refl; cbn [andb];
      apply Z.leb_le; unfold MAX_PAYLOAD_SIZE; lia.
  - intros data Hne Hl Hd m'.
    assert (Hm' : m' = mkMessage
                         (with_payload_size (Z.of_nat (length (payload_ m ++ data)))
                                            (header_ m))
                         (payload_ m ++ data) (valid_ m)
                  /\ fst (append_payload true data m)
                     = Z.of_nat (length (payload_ m ++ data))).
    { unfold m', append_payload. destruct data as [|b data]; [congruence|].
      cbn [length Nat.eqb]. cbv zeta.
      rewrite Z.mod_small by lia. split; reflexivity. }
    destruct Hm' as [-> ->]. cbn [payload_].
    split; [reflexivity|]. split; [reflexivity|].
    unfold message_is_valid. cbn [header_ valid_].
    rewrite (stale_checksum _ _ Hh Hs) by lia. apply andb_false_r.
  - intros Hnz. unfold message_is_valid, clear_payload. cbn [header_ valid_].
    rewrite (stale_checksum _ _ Hh Hs) by lia. apply andb_false_r.
Qed.

Lemma payload_setters_leave_checksum_stale_witness :
  let m := Protocol.new_message Protocol.zero_padding Protocol.SET_BITRATE 0 0 in
  let m' := snd (Protocol.set_payload true [0; 0x50; 0x46; 0] m) in
  Protocol.message_is_valid m = true /\
  0 <= Protocol.payload_size (Protocol.header_ m) < 2 ^ 16 /\
  Protocol.payload_size (Protocol.header_ m') = 4 /\
  Protocol.message_is_valid m' = false /\
  Protocol.message_is_valid (Protocol.set_timestamp 1 m') = true.
Proof.
  intros m m'.
  assert (Hv : Protocol.message_is_valid m = true) by (vm_compute; reflexivity).
  assert (Hs : 0 <= Protocol.payload_size (Protocol.header_ m) < 2 ^ 16)
    by (vm_compute; split; [discriminate|reflexivity]).
  destruct (payload_setters_leave_checksum_stale m Hv Hs) as (Hset & _ & _).
  destruct (Hset [0; 0x50; 0x46; 0]) as (_ & Hsz & Hbad & _ & Hts).
  - simpl; lia.
  - vm_compute; discriminate.
  - split; [exact Hv|]. split; [exact Hs|]. split; [exact Hsz|].
    split; [exact Hbad|]. apply Hts.
Defined.
End Setters.

(** ** Parsing a message *)

Section Parsing.
Import Protocol.

Lemma le_value_nonneg (l : list Z) : bytes l -> 0 <= le_value l.
Proof.
  induction 1 as [|b l Hb Hl IH]; cbn [le_value]; [lia|].
  unfold is_byte in Hb. lia.
Qed.

(** X10.  [from_bytes] returns true exactly when it leaves a message for
    which [is_valid()] holds.  On success the payload is the
    [payload_size] bytes that follow the header and the sizes agree.
    On failure the payload is the one the object held before, although
    the header has been overwritten as soon as twenty bytes were
    there. *)
Theorem from_bytes_outcome (alloc_ok : bool) (data : list Z) (m : Message) :
  bytes data ->
  let r := from_bytes alloc_ok data m in
  fst r = message_is_valid (snd r) /\
  (fst r = true ->
     header_ (snd r) = deserialize data (header_ m) /\
     payload_ (snd r) = slice 20 (Z.to_nat (get_payload_size (snd r))) data /\
     Z.of_nat (length (payload_ (snd r))) = get_payload_size (snd r) /\
     Z.of_nat (total_size (snd r)) <= Z.of_nat (length data) /\
     get_payload_size (snd r) <= MAX_PAYLOAD_SIZE) /\
  (fst r = false ->
     payload_ (snd r) = payload_ m /\
     ((20 <= length data)%nat ->
      header_ (snd r) = deserialize data (header_ m))).
Proof.
  intros Hb r. unfold r, from_bytes, message_is_valid, get_payload_size, total_size.
  destruct (Nat.ltb_spec (length data) HEADER_SIZE) as [Hshort|Hlong].
  { cbn [fst snd valid_ payload_ header_ andb]. unfold HEADER_SIZE in Hshort.
    split; [reflexivity|]. split; [discriminate|]. intros _. split; [reflexivity|lia]. }
  set (h := deserialize data (header_ m)).
  assert (Hps : 0 <= payload_size h).
  { destruct (deserialize_checked_fields data (header_ m) Hb Hlong) as (_ & Hp & _).
    fold h in Hp. rewrite Hp. apply le_value_nonneg, slice_bytes, Hb. }
  destruct (is_valid h) eqn:Hv; cbn [negb].
  2:{ cbn [fst snd valid_ payload_ header_ andb].
      split; [reflexivity|]. split; [discriminate|]. auto. }
  pose proof Hv as Hv'. apply is_valid_true_iff in Hv' as (_ & Hmax & _).
  cbv zeta.
  destruct (Z.ltb_spec (Z.of_nat (length data)) (Z.of_nat HEADER_SIZE + payload_size h))
    as [Hinc|Hall].
  { cbn [fst snd valid_ payload_ header_ andb].
    split; [reflexivity|]. split; [discriminate|]. auto. }
  unfold HEADER_SIZE in *.
  destruct (Z.gtb_spec (payload_size h) 0) as [Hpos|Hzero].
  - destruct alloc_ok.
    + cbn [fst snd valid_ payload_ header_ andb]. rewrite Hv.
      split; [reflexivity|]. split; [|discriminate]. intros _.
      split; [reflexivity|]. split; [reflexivity|].
      rewrite length_take, length_drop. lia.
    + cbn [fst snd valid_ payload_ header_ andb].
      split; [reflexivity|]. split; [discriminate|]. auto.
  - cbn [fst snd valid_ payload_ header_ andb]. rewrite Hv.
    assert (Hz : payload_size h = 0) by lia.
    split; [reflexivity|]. split; [|discriminate]. intros _.
    split; [reflexivity|]. rewrite Hz. cbn [length]. unfold slice.
    split; [reflexivity|]. lia.
Qed.

Lemma from_bytes_outcome_witness :
  let data := Protocol.to_bytes (Protocol.default_message Protocol.zero_padding)
              ++ next_bytes in
  bytes data /\
  fst (Protocol.from_bytes true data received) = true /\
  Protocol.message_is_valid (snd (Protocol.from_bytes true data received)) = true.
Proof.
  intros data.
  assert (Hb : bytes data) by (apply bytes_forallb; vm_compute; reflexivity).
  destruct (from_bytes_outcome true data received Hb) as (Heq & _ & _).
  split; [exact Hb|]. split; [vm_compute; reflexivity|].
  rewrite <- Heq. vm_compute. reflexivity.
Defined.
End Parsing.

(** ** Connection: sending *)

Section Sending.
Import Protocol Connection.



End Sending.

(** ** Connection: the end of a connection *)

Section Disconnecting.
Import Protocol Connection.


End Disconnecting.

(** ** The pipeline task: counters and queued messages *)

Section PipelineCounters.
Import Protocol MediaProcessor.









End PipelineCounters.


(** ** What the header checksum covers *)

Section ChecksumCoverage.
Import Protocol.

Lemma low_two_bytes (a b : Z) :
  a mod 2 ^ 16 = b mod 2 ^ 16 ->
  a mod 256 = b mod 256 /\ (a / 256) mod 256 = (b / 256) mod 256.
Proof.
  change (2 ^ 16) with (256 * 256). rewrite !Z.rem_mul_r by lia.
  pose proof (Z.mod_pos_bound a 256 ltac:(lia)).
  pose proof (Z.mod_pos_bound b 256 ltac:(lia)).
  pose proof (Z.mod_pos_bound (a / 256) 256 ltac:(lia)).
  pose proof (Z.mod_pos_bound (b / 256) 256 ltac:(lia)).
  lia.
Qed.

(** The eighteen bytes under the checksum: six of them are padding, two
    belong to the timestamp. *)
Lemma calculate_crc_covers (h : MessageHeader) :
  calculate_crc h
  = crc16 (le_bytes 4 (magic h) ++ le_bytes 2 (type h) ++ le_bytes 2 (pad_6 h)
             ++ le_bytes 4 (payload_size h) ++ le_bytes 4 (pad_12 h)
             ++ [timestamp h mod 256; timestamp h / 256 mod 256]).
Proof.
  rewrite calculate_crc_serialized. apply (f_equal crc16). reflexivity.
Qed.

Lemma calculate_crc_with_timestamp (ts : Z) (h : MessageHeader) :
  ts mod 2 ^ 16 = timestamp h mod 2 ^ 16 ->
  calculate_crc (with_timestamp ts h) = calculate_crc h.
Proof.
  intros Hts. apply low_two_bytes in Hts as [H0 H1].
  rewrite !calculate_crc_covers. apply (f_equal crc16).
  assert (Hf : magic (with_timestamp ts h) = magic h
               /\ type (with_timestamp ts h) = type h
               /\ pad_6 (with_timestamp ts h) = pad_6 h
               /\ payload_size (with_timestamp ts h) = payload_size h
               /\ pad_12 (with_timestamp ts h) = pad_12 h
               /\ timestamp (with_timestamp ts h) = ts)
    by (repeat split; reflexivity).
  destruct Hf as (-> & -> & -> & -> & -> & ->).
  rewrite H0, H1. reflexivity.
Qed.

(** C3.  [is_valid()] makes its three checks in the stated order, but
    its CRC is not the one over bytes 0..17 of the stated header (magic,
    type, payload size, timestamp): [calculate_crc] reads the first
    eighteen bytes of the object, which hold six padding bytes and only
    the two low bytes of the timestamp.  [sample_header] passes
    [is_valid()] while its stored CRC is not the stated one, and fails
    it once the stated CRC is stored.  Changing the timestamp above its
    two low bytes changes stated bytes 10..17 and leaves the header
    valid; changing a padding byte changes no stated byte and makes it
    invalid. *)
Theorem C3_checksum_covers_padding_not_timestamp :
  is_valid sample_header = true /\
  stated_is_valid sample_header = false /\
  (let h := with_crc (crc16 (take 18 (stated_header_bytes sample_header)))
                     sample_header in
   stated_is_valid h = true /\ is_valid h = false) /\
  take 18 (stated_header_bytes later_header)
  <> take 18 (stated_header_bytes sample_header) /\
  header_crc later_header = header_crc sample_header /\
  is_valid later_header = true /\
  stated_is_valid later_header = false /\
  (forall h ts,
     is_valid h = true -> ts mod 2 ^ 16 = timestamp h mod 2 ^ 16 ->
     is_valid (with_timestamp ts h) = true) /\
  stated_header_bytes repadded_header = stated_header_bytes sample_header /\
  is_valid repadded_header = false /\
  (forall h,
     calculate_crc h
     = crc16 (le_bytes 4 (magic h) ++ le_bytes 2 (type h)
                ++ le_bytes 2 (pad_6 h)
                ++ le_bytes 4 (payload_size h) ++ le_bytes 4 (pad_12 h)
                ++ [timestamp h mod 256; timestamp h / 256 mod 256])).
Proof.
  split; [vm_compute; reflexivity|].
  split; [vm_compute; reflexivity|].
  split; [split; vm_compute; reflexivity|].
  split; [vm_compute; congruence|].
  split; [reflexivity|].
  split; [vm_compute; reflexivity|].
  split; [vm_compute; reflexivity|].
  split.
  { intros h ts Hv Hts. apply is_valid_true_iff in Hv as (Hm & Hp & Hc).
    apply is_valid_true_iff. split; [exact Hm|]. split; [exact Hp|].
    rewrite (calculate_crc_with_timestamp ts h Hts). exact Hc. }
  split; [reflexivity|].
  split; [vm_compute; reflexivity|].
  exact calculate_crc_covers.
Qed.
End ChecksumCoverage.

(** ** The ring buffer's calls and the receive engine *)

Section RingCalls.
Import Protocol Connection Call.

Lemma ring_call_std (cb : CircularBuffer.t) (src : list Z) (size : nat) :
  RingCall.write StdMutex false src cb
  = (if (length src =? 0)%nat then Returns (0%nat, cb) else NeverReturns) /\
  RingCall.read StdMutex false size cb
  = (if (size =? 0)%nat then Returns ([], cb) else NeverReturns) /\
  RingCall.peek StdMutex false size cb
  = (if (size =? 0)%nat then Returns [] else NeverReturns).
Proof.
  unfold RingCall.write, RingCall.read, RingCall.peek.
  destruct (length src =? 0)%nat, (size =? 0)%nat; repeat split; reflexivity.
Qed.

Lemma ring_call_recursive (cb : CircularBuffer.t) (src : list Z) (size : nat)
    (held : bool) :
  RingCall.write RecursiveMutex held src cb
  = Returns (CircularBuffer.write src cb) /\
  RingCall.read RecursiveMutex held size cb
  = Returns (CircularBuffer.read size cb) /\
  RingCall.peek RecursiveMutex held size cb
  = Returns (CircularBuffer.peek size cb).
Proof.
  unfold RingCall.write, RingCall.read, RingCall.peek,
    CircularBuffer.write, CircularBuffer.read, CircularBuffer.peek.
  destruct (length src =? 0)%nat, (size =? 0)%nat; repeat split; reflexivity.
Qed.


Lemma try_extract_message_std (p : padding) (alloc_ok : bool)
    (message : Message) (c : Connection.t) :
  ConnectionCall.try_extract_message StdMutex p alloc_ok message c
  = if (CircularBuffer.available_data (recv_buffer_ c) <? HEADER_SIZE)%nat
    then Returns (false, message, c) else NeverReturns.
Proof.
  unfold ConnectionCall.try_extract_message.
  cbv zeta. unfold RingCall.available_data at 1. cbn [lock_guard bind].
  destruct (CircularBuffer.available_data (recv_buffer_ c) <? HEADER_SIZE)%nat;
    reflexivity.
Qed.

Lemma try_extract_message_recursive (p : padding) (alloc_ok : bool)
    (message : Message) (c : Connection.t) :
  ConnectionCall.try_extract_message RecursiveMutex p alloc_ok message c
  = Returns (Connection.try_extract_message p alloc_ok message c).
Proof.
  unfold ConnectionCall.try_extract_message, Connection.try_extract_message.
  cbv zeta. unfold RingCall.available_data, RingCall.clear.
  cbn [lock_guard bind].
  destruct (CircularBuffer.available_data (recv_buffer_ c) <? HEADER_SIZE)%nat;
    [reflexivity|].
  destruct (ring_call_recursive (recv_buffer_ c) [] HEADER_SIZE false)
    as (_ & _ & ->).
  cbn [bind].
  destruct (negb (length (CircularBuffer.peek HEADER_SIZE (recv_buffer_ c))
                  =? HEADER_SIZE)%nat); [reflexivity|].
  set (header := deserialize (CircularBuffer.peek HEADER_SIZE (recv_buffer_ c))
                   (new_header p FRAME_DATA 0 0)).
  destruct (negb (is_valid header)); [reflexivity|].
  destruct (CircularBuffer.available_data (recv_buffer_ c)
            <? HEADER_SIZE + Z.to_nat (payload_size header))%nat; [reflexivity|].
  destruct (ring_call_recursive (recv_buffer_ c) []
              (HEADER_SIZE + Z.to_nat (payload_size header)) false)
    as (_ & -> & _).
  cbn [bind].
  destruct (CircularBuffer.read (HEADER_SIZE + Z.to_nat (payload_size header))
              (recv_buffer_ c)) as [msg_data rb'].
  destruct (negb (length msg_data
                  =? HEADER_SIZE + Z.to_nat (payload_size header))%nat);
    [reflexivity|].
  destruct (from_bytes alloc_ok msg_data message) as [[|] message'];
    reflexivity.
Qed.

(** C4.  In the code as it is, neither resynchronisation takes place:
    with twenty or more bytes buffered, [try_extract_message] does not
    come back from [recv_buffer_.peek], so it clears nothing, logs
    nothing and the connection does not continue.  With the re-entry
    admitted (a recursive mutex) the call is the body, and the body on
    [conn_with_frame] validates the header, reads the frame, fails to
    deserialize it, logs, and does not clear the ring buffer: the five
    bytes behind the frame stay. *)
Theorem C4_receive_engine_does_not_resync :
  (forall p alloc_ok message c,
     (HEADER_SIZE <= CircularBuffer.available_data (recv_buffer_ c))%nat ->
     ConnectionCall.try_extract_message StdMutex p alloc_ok message c
     = NeverReturns) /\
  (forall p alloc_ok message c,
     ConnectionCall.try_extract_message RecursiveMutex p alloc_ok message c
     = Returns (Connection.try_extract_message p alloc_ok message c)) /\
  let rb := recv_buffer_ conn_with_frame in
  let header :=
    deserialize (CircularBuffer.peek HEADER_SIZE rb)
                (new_header zero_padding FRAME_DATA 0 0) in
  let r := Connection.try_extract_message zero_padding true reused_message
             conn_with_frame in
  ConnectionCall.try_extract_message StdMutex zero_padding true reused_message
    conn_with_frame = NeverReturns /\
  ConnectionCall.try_extract_message RecursiveMutex zero_padding true
    reused_message conn_with_frame = Returns r /\
  CircularBuffer.available_data rb = 25%nat /\
  is_valid header = true /\
  fst (from_bytes true (fst (CircularBuffer.read 20 rb)) reused_message) = false /\
  fst (fst r) = false /\
  cerr (snd r) = [DeserializeFailed 7] /\
  connected_ (snd r) = true /\
  CircularBuffer.available_data (recv_buffer_ (snd r)) = 5%nat /\
  CircularBuffer.peek 5 (recv_buffer_ (snd r)) = next_bytes /\
  recv_buffer_ (snd r) <> CircularBuffer.clear rb.
Proof.
  assert (Hstd : forall p alloc_ok message c,
             (HEADER_SIZE <= CircularBuffer.available_data (recv_buffer_ c))%nat ->
             ConnectionCall.try_extract_message StdMutex p alloc_ok message c
             = NeverReturns).
  { intros p alloc_ok message c Hfill. rewrite try_extract_message_std.
    destruct (Nat.ltb_spec (CircularBuffer.available_data (recv_buffer_ c))
                HEADER_SIZE); [lia|reflexivity]. }
  split; [exact Hstd|]. split; [exact try_extract_message_recursive|].
  cbv zeta.
  split; [apply Hstd; vm_compute; lia|].
  split; [apply try_extract_message_recursive|].
  exact deserialization_failure_keeps_buffer.
Qed.

(** X12.  [receive_message] on a connection that is not connected
    returns false at once; when the read reports end of stream or an
    error it clears [connected_] and returns false; when the read
    delivers bytes it never returns, because [recv_buffer_.write] takes
    the buffer's mutex and then calls [available_data()], which takes it
    again: no message is ever received.  On a recursive mutex the call
    would return what its body computes. *)
Theorem receive_message_never_returns_with_data (p : padding)
    (alloc_ok : bool) (incoming : list Z) (message : Message)
    (c : Connection.t) :
  (connected_ c = false ->
   ConnectionCall.receive_message StdMutex p alloc_ok incoming message c
   = Returns (false, message, c)) /\
  (connected_ c = true ->
   ConnectionCall.receive_message StdMutex p alloc_ok [] message c
   = Returns (false, message, with_connected false c)) /\
  (connected_ c = true -> incoming <> [] ->
   ConnectionCall.receive_message StdMutex p alloc_ok incoming message c
   = NeverReturns) /\
  ConnectionCall.receive_message RecursiveMutex p alloc_ok incoming message c
  = Returns (Connection.receive_message p alloc_ok incoming message c).
Proof.
  unfold ConnectionCall.receive_message, Connection.receive_message.
  split; [intros ->; reflexivity|].
  split; [intros ->; reflexivity|].
  split.
  { intros -> Hne. cbn [negb].
    destruct (ring_call_std (recv_buffer_ c) incoming 0) as (-> & _ & _).
    destruct incoming; [congruence|reflexivity]. }
  destruct (negb (connected_ c)); [reflexivity|].
  destruct (length incoming =? 0)%nat; [reflexivity|].
  destruct (ring_call_recursive (recv_buffer_ c) incoming 0 false) as (-> & _ & _).
  cbn [bind].
  destruct (CircularBuffer.write incoming (recv_buffer_ c)) as [written rb].
  apply try_extract_message_recursive.
Qed.
End RingCalls.

(** ** Video capture: the bounded frame queue *)

Section CaptureQueue.
Import VideoCapture.



End CaptureQueue.

